(** * The REST batch-ingestion handlers of the restapi package

    A shallow embedding of the hand-written part of package [restapi]: the
    result-limit helper, the response-field selection, the peer-update
    handler, the GraphQL handlers and the schema-update callback, and the
    batch-create handlers with their per-item tasks.

    Goroutines are modelled by interleaving: the task of a batch item runs
    as one step, an asynchronous connector write as another, and the
    handlers are run against every order of these steps.

    Conventions.  Go's [int]/[int64] are [Z] (64 bit); a [map[string]int]
    is a [gmap string Z]; a slice indexed in place is a [list] with stdpp's
    lookup and insert, the out-of-range case written out; a nil-able
    pointer field is an [option]; heap objects shared between goroutines
    live in an explicit store addressed by location. *)

From Stdlib Require Import ZArith List Bool Ascii String Permutation.
From Stdlib Require Import Uint63 PrimFloat SpecFloat FloatOps.
From stdpp Require Import base tactics option list gmap strings.

#[local] Set Warnings "-clear-no-such-hyp".

Import ListNotations.

(** ** getLimit *)

Module Limit.

Local Open Scope Z_scope.

Definition minInt64 : Z := - 2 ^ 63.
Definition maxInt64 : Z := 2 ^ 63 - 1.

Definition is_int64 (x : Z) : Prop := minInt64 <= x <= maxInt64.

(** [float64(x)] for an integer [x]: the nearest binary64 value, ties to
    the even significand.  Every binary64 value met here is an integer, so
    the float is represented by the integer it denotes.  Below [2^53] in
    magnitude the conversion is exact; above, the low [e] bits are rounded
    away. *)
Definition float64 (x : Z) : Z :=
  let a := Z.abs x in
  if a <? 2 ^ 53 then x
  else
    let e := Z.log2 a - 52 in
    let q := Z.shiftr a e in
    let r := Z.land a (Z.ones e) in
    let half := Z.shiftl 1 (e - 1) in
    let q' := if (half <? r) || ((r =? half) && Z.odd q) then q + 1 else q in
    Z.sgn x * Z.shiftl q' e.

(** The same conversion done by the machine's binary64 arithmetic, for a
    non-negative argument below [2^63]; used to check [float64]. *)
Definition binary64_of_int (x : Z) : option Z :=
  match FloatOps.Prim2SF (PrimFloat.of_uint63 (Uint63.of_Z x)) with
  | S754_zero _ => Some 0
  | S754_finite sign m e =>
      let v := if 0 <=? e then Z.pos m * 2 ^ e else Z.pos m / 2 ^ (- e) in
      Some (if sign then - v else v)
  | _ => None
  end.

(** [math.Min] on two finite values. *)
Definition math_Min (x y : Z) : Z := if x <? y then x else y.

(** [int(f)] for an integer-valued float [f].  A value outside the range of
    [int] converts to an implementation-dependent result; amd64 yields the
    indefinite integer [-2^63]. *)
Definition int_of_float64 (f : Z) : Z :=
  if (minInt64 <=? f) && (f <=? maxInt64) then f else minInt64.

(** [serverConfig.Environment.Limit] is the first argument;
    [paramMaxResults *int64] is an [option]. *)
Definition getLimit (Limit : Z) (paramMaxResults : option Z) : Z :=
  let maxResults := Limit in
  let maxResults :=
    match paramMaxResults with
    | Some p => p
    | None => maxResults
    end in
  int_of_float64 (math_Min (float64 maxResults) (float64 Limit)).

End Limit.

(** ** determineResponseFields *)

Module Fields.

(** [strings.ToLower] on the bytes of the string: the letters [A]..[Z] are
    moved to [a]..[z], every other byte is kept.  This is Go's result on
    ASCII input; field names are ASCII. *)
Definition lower_ascii (c : ascii) : ascii :=
  let n := nat_of_ascii c in
  if (65 <=? n)%nat && (n <=? 90)%nat then ascii_of_nat (n + 32) else c.

Fixpoint ToLower (s : string) : string :=
  match s with
  | EmptyString => EmptyString
  | String c s' => String (lower_ascii c) (ToLower s')
  end.

(** The literal the function starts from. *)
Definition initialFields : gmap string Z :=
  <["actionid" := 0%Z]> (<["key" := 0%Z]> (<["creationtimeunix" := 0%Z]>
    (<["schema" := 0%Z]> (<["@class" := 0%Z]> ∅)))).

(** First loop: is the "ALL" option among the fields? *)
Fixpoint allRequested (fields : list string) : bool :=
  match fields with
  | [] => false
  | field :: rest =>
      let fieldToKeep := ToLower field in
      if String.eqb fieldToKeep "all" then true else allRequested rest
  end.

(** Second loop: enter every provided field into the map. *)
Fixpoint keepProvided (fields : list string) (fieldsToKeep : gmap string Z)
  : gmap string Z :=
  match fields with
  | [] => fieldsToKeep
  | field :: rest =>
      let fieldToKeep := ToLower field in
      keepProvided rest (<[fieldToKeep := 0%Z]> fieldsToKeep)
  end.

Definition determineResponseFields (fields : list string) (isThingsCreate : bool)
  : gmap string Z :=
  let fieldsToKeep := initialFields in
  let fieldsToKeep :=
    if isThingsCreate
    then <["thingid" := 0%Z]> (delete "actionid" fieldsToKeep)
    else fieldsToKeep in
  if (0 <? length fields)%nat then
    if allRequested fields then fieldsToKeep
    else keepProvided fields ∅
  else fieldsToKeep.

(** The fixed default field set, spelled out for each kind of batch. *)
Definition defaultFields (isThingsCreate : bool) : gset string :=
  if isThingsCreate
  then {[ "@class"; "schema"; "creationtimeunix"; "key"; "thingid" ]}
  else {[ "@class"; "schema"; "creationtimeunix"; "key"; "actionid" ]}.

(** The spellings of "all" up to letter case. *)
Definition spellsAll (s : string) : Prop :=
  s ∈ ["all"; "alL"; "aLl"; "aLL"; "All"; "AlL"; "ALl"; "ALL"].

End Fields.

(** ** The network interface and the peer-update handler *)

Module Peers.

(** [models.PeerUpdate], one entry of the request body. *)
Record PeerUpdate := {
  pu_ID : string;
  pu_Name : string;
  pu_URI : string;
  pu_SchemaHash : string
}.

(** [peers.Peer]. *)
Record Peer := {
  ID : string;
  Name : string;
  URI : string;
  SchemaHash : string
}.

(** The part of the [libnetwork.Network] interface the handlers use.  A
    network value is the state of the peer registry; [UpdatePeers] returns
    the next state and the error ([None] is Go's [nil]). *)
Class Network (N : Type) := {
  UpdatePeers : N -> list Peer -> N * option string;
  ListPeers : N -> list Peer + string
}.

(** Calls made on the network, in order. *)
Inductive NetCall :=
  | CallUpdatePeers (newPeers : list Peer)
  | CallListPeers.

Inductive GenesisUpdateResponder :=
  | WeaviateP2pGenesisUpdateOK
  | WeaviateP2pGenesisUpdateInternalServerError.

(** The loop over [params.Peers], appending to [newPeers]. *)
Fixpoint convertPeers (genesisPeers : list PeerUpdate) (newPeers : list Peer)
  : list Peer :=
  match genesisPeers with
  | [] => newPeers
  | genesisPeer :: rest =>
      let peer := {| ID := pu_ID genesisPeer;
                     Name := pu_Name genesisPeer;
                     URI := pu_URI genesisPeer;
                     SchemaHash := pu_SchemaHash genesisPeer |} in
      convertPeers rest (newPeers ++ [peer])
  end.

(** The handler, on the network and the log of calls made on it. *)
Definition P2PWeaviateP2pGenesisUpdateHandler {N} `{Network N}
    (network : N) (calls : list NetCall) (params_Peers : list PeerUpdate)
  : GenesisUpdateResponder * (N * list NetCall) :=
  let newPeers := convertPeers params_Peers [] in
  let '(network', err) := UpdatePeers network newPeers in
  let calls' := calls ++ [CallUpdatePeers newPeers] in
  match err with
  | None => (WeaviateP2pGenesisUpdateOK, (network', calls'))
  | Some _ => (WeaviateP2pGenesisUpdateInternalServerError, (network', calls'))
  end.

(** The field-by-field image of one entry. *)
Definition toPeer (g : PeerUpdate) : Peer :=
  {| ID := pu_ID g; Name := pu_Name g; URI := pu_URI g;
     SchemaHash := pu_SchemaHash g |}.

(** A network for examples: the registry is the current peer list; an
    update that names the peer "genesis" is rejected, and listing fails
    while the registry holds a peer named "unreachable". *)
Definition rejects (ps : list Peer) : bool :=
  existsb (fun p => String.eqb (Name p) "genesis") ps.

#[export] Instance listNetwork : Network (list Peer) := {
  UpdatePeers cur newPeers :=
    if rejects newPeers then (cur, Some "update rejected")
    else (newPeers, None);
  ListPeers cur :=
    if existsb (fun p => String.eqb (Name p) "unreachable") cur
    then inr "network unreachable"
    else inl cur
}.

End Peers.

(** ** The GraphQL handlers and the schema-update callback *)

Module GraphQL.
Import Peers.

Definition error422 : string :=
  "The request is well-formed but was unable to be followed due to semantic errors.".

(** [graphql.WeaviateGraphqlBatchUnprocessableEntityCode], printed by
    [strconv.Itoa]. *)
Definition WeaviateGraphqlBatchUnprocessableEntityCode : string := "422".

(** The dynamic value of the [variables] field, an [interface{}]. *)
Inductive Variables :=
  | VarsNil
  | VarsMap (m : list (string * string))
  | VarsOther (v : string).

(** [models.GraphQLQuery]. *)
Record GraphQLQuery := {
  Query : string;
  OperationName : string;
  QVariables : Variables
}.

Record GraphQLError := { Message : string }.

(** [models.GraphQLResponse]; [Data] is kept as its JSON text. *)
Record GraphQLResponse := {
  Data : option string;
  Errors : list GraphQLError
}.

(** The [principal interface{}] handed over by the authentication layer. *)
Inductive Principal :=
  | KeyTokenPrincipal (KeyID : string)
  | ForeignPrincipal.

Inductive PanicValue :=
  | PanicMessage (msg : string)
  | PanicTypeAssertion.

(** What a call does: it returns, or it panics. *)
Inductive Outcome (A : Type) :=
  | Returned (a : A)
  | Panicked (p : PanicValue).
Arguments Returned {A} a.
Arguments Panicked {A} p.

#[export] Instance Outcome_bind : MBind Outcome := fun A B k o =>
  match o with
  | Returned a => k a
  | Panicked p => Panicked p
  end.

(** [v.(map[string]interface{})] guarded by [v != nil]. *)
Definition assertVariables (v : Variables) : Outcome (option (list (string * string))) :=
  match v with
  | VarsNil => Returned None
  | VarsMap m => Returned (Some m)
  | VarsOther _ => Panicked PanicTypeAssertion
  end.

(** The type assertion of [principal] to a key-token response. *)
Definition assertPrincipal (p : Principal) : Outcome string :=
  match p with
  | KeyTokenPrincipal k => Returned k
  | ForeignPrincipal => Panicked PanicTypeAssertion
  end.

(** The provider interface [graphqlapi.GraphQL] with the JSON round trip the
    handlers put its result through: [json.Marshal] of the result,
    [json.Unmarshal] into the response, and the [%#v] rendering used in an
    error message. *)
Class Provider (G : Type) := {
  Result : Type;
  Resolve : G -> string -> string -> option (list (string * string)) -> Result;
  json_Marshal : Result -> string + string;
  json_Unmarshal : string -> GraphQLResponse + string;
  goSyntax : Result -> string
}.

Inductive PostResponder :=
  | WeaviateGraphqlPostUnprocessableEntity (payload : list string)
  | WeaviateGraphqlPostOK (payload : GraphQLResponse).

Definition noProviderMessage : string :=
  "no graphql provider present, " +:+
  "this is most likely because no schema is present. Import a schema first!".

(** The non-batched handler; [graphQL] is the package variable. *)
Definition GraphqlWeaviateGraphqlPostHandler {G} `{Provider G}
    (graphQL : option G) (params_Body : GraphQLQuery) (principal : Principal)
  : Outcome PostResponder :=
  let query := Query params_Body in
  let operationName := OperationName params_Body in
  if String.eqb query "" then
    Returned (WeaviateGraphqlPostUnprocessableEntity ["query cannot be empty"])
  else
    variables ← assertVariables (QVariables params_Body);
    assertPrincipal principal ;;
    match graphQL with
    | None => Returned (WeaviateGraphqlPostUnprocessableEntity [noProviderMessage])
    | Some g =>
        let result := Resolve g query operationName variables in
        match json_Marshal result with
        | inr jsonErr =>
            Returned (WeaviateGraphqlPostUnprocessableEntity
                        ["couldn't marshal json: " +:+ jsonErr])
        | inl resultJSON =>
            match json_Unmarshal resultJSON with
            | inr marshallErr =>
                Returned (WeaviateGraphqlPostUnprocessableEntity
                            ["couldn't unmarshal json: " +:+ marshallErr +:+
                             String "010" "original result was " +:+ goSyntax result])
            | inl graphQLResponse => Returned (WeaviateGraphqlPostOK graphQLResponse)
            end
        end
    end.

(** [rest_api_utils.UnbatchedRequestResponse]. *)
Record UnbatchedRequestResponse := {
  RequestIndex : nat;
  Response : GraphQLResponse
}.

Definition unprocessableResponse : GraphQLResponse :=
  let errorCode := WeaviateGraphqlBatchUnprocessableEntityCode in
  let errorMessage := errorCode +:+ ": " +:+ error422 in
  {| Data := None; Errors := [ {| Message := errorMessage |} ] |}.

(** One request of a GraphQL batch; the value returned is the message the
    task sends on the result channel. *)
Definition handleUnbatchedGraphQLRequest {G} `{Provider G}
    (graphQL : option G) (unbatchedRequest : GraphQLQuery) (requestIndex : nat)
  : Outcome UnbatchedRequestResponse :=
  let query := Query unbatchedRequest in
  let operationName := OperationName unbatchedRequest in
  if String.eqb query "" then
    Returned {| RequestIndex := requestIndex; Response := unprocessableResponse |}
  else
    variables ← assertVariables (QVariables unbatchedRequest);
    match graphQL with
    | None => Panicked (PanicMessage "graphql is nil!")
    | Some g =>
        let result := Resolve g query operationName variables in
        match json_Marshal result with
        | inr _ =>
            Returned {| RequestIndex := requestIndex; Response := unprocessableResponse |}
        | inl resultJSON =>
            match json_Unmarshal resultJSON with
            | inr _ =>
                Returned {| RequestIndex := requestIndex;
                            Response := unprocessableResponse |}
            | inl graphQLResponse =>
                Returned {| RequestIndex := requestIndex; Response := graphQLResponse |}
            end
        end
    end.

(** Lines written through [messaging] and to standard output. *)
Inductive LogLine :=
  | Printf (line : string)
  | ErrorMessage (msg : string)
  | InfoMessage (msg : string).

(** The package variables the callback works on: the published provider,
    the log, and the record of [graphqlapi.Build] invocations. *)
Record ServerState (G Schema : Type) := {
  graphQL : option G;
  messages : list LogLine;
  builds : list (Schema * list Peer)
}.
Arguments graphQL {G Schema} _.
Arguments messages {G Schema} _.
Arguments builds {G Schema} _.

(** The function registered with [RegisterSchemaUpdateCallback].  [Build]
    is [graphqlapi.Build] with the database, network and messaging
    arguments fixed. *)
Definition schemaUpdateCallback {N G Schema} `{Network N}
    (Build : Schema -> list Peer -> G + string)
    (network : N) (updatedSchema : Schema) (st : ServerState G Schema)
  : ServerState G Schema :=
  let msgs := messages st ++ [Printf "UPDATESCHEMA DB"] in
  match ListPeers network with
  | inr err =>
      {| graphQL := None;
         messages := msgs ++
           [ErrorMessage ("could not list network peers to regenerate schema:" +:+
                          String "010" err)];
         builds := builds st |}
  | inl peers =>
      match Build updatedSchema peers with
      | inr err =>
          {| graphQL := None;
             messages := msgs ++
               [ErrorMessage ("Could not re-generate GraphQL schema, because:" +:+
                              String "010" err)];
             builds := builds st ++ [(updatedSchema, peers)] |}
      | inl updatedGraphQL =>
          {| graphQL := Some updatedGraphQL;
             messages := msgs ++ [InfoMessage "Updated GraphQL schema"];
             builds := builds st ++ [(updatedSchema, peers)] |}
      end
  end.

(** A provider for examples: it answers with the query text. *)
#[export] Instance echoProvider : Provider unit := {
  Result := string;
  Resolve _ query _ _ := query;
  json_Marshal r := inl r;
  json_Unmarshal b := inl {| Data := Some b; Errors := [] |};
  goSyntax r := r
}.

End GraphQL.

(** ** The batch-create handlers *)

Module Batch.
Import Fields.

(** The three values of the result status enumeration. *)
Inductive ResultStatus := SUCCESS | PENDING | FAILED.

(** [models.SingleRef]. *)
Record SingleRef := {
  LocationURL : string;
  NrDollarCref : string;
  RefType : string
}.

(** One element of the request body, [models.ActionCreate] or
    [models.ThingCreate]. *)
Record ObjectCreate := {
  oc_AtContext : string;
  oc_AtClass : string;
  oc_Schema : string
}.

(** [models.Action] or [models.Thing]; an unset field holds its zero
    value. *)
Record Object := {
  AtContext : string;
  AtClass : string;
  Schema : option string;
  CreationTimeUnix : Z;
  LastUpdateTimeUnix : Z;
  Key : option SingleRef
}.

(** The result part of a response entry: the status pointer and the error
    response pointer, both nil at first. *)
Record Result := {
  Status : option ResultStatus;
  Errors : option (list string)
}.

(** [models.ActionsGetResponse] or [models.ThingsGetResponse]. *)
Record GetResponse := {
  Obj : Object;
  ObjectID : string;
  ObjResult : Result
}.

(** The request body. *)
Record Body := {
  Items : list ObjectCreate;
  BodyFields : list string;
  Async : bool
}.

(** The principal the authentication layer hands over. *)
Record KeyTokenGetResponse := { KeyID : string }.

Inductive Responder :=
  | Forbidden
  | UnprocessableEntity (payload : list string)
  | OK (payload : list (option nat)).

(** Who calls [DelayedLock.Unlock]: the handler's deferred call, or the
    asynchronous write of the item with the given index. *)
Inductive Caller := ByHandler | ByAsyncWrite (requestIndex : nat).

(** Modelled from the spec: the [delayed_unlock] package is not among the
    sources.  The lock keeps a counter of pending steps; releasing the
    underlying write lock is deferred until the synchronous portion has
    finished and the counter is back at zero, whichever happens last. *)
Record DelayedLock := {
  pendingSteps : Z;
  synchronousDone : bool;
  releases : nat
}.

Definition delayed_unlock_New : DelayedLock :=
  {| pendingSteps := 0; synchronousDone := false; releases := 0 |}.

Definition register_pending_step (l : DelayedLock) : DelayedLock :=
  {| pendingSteps := pendingSteps l + 1;
     synchronousDone := synchronousDone l;
     releases := releases l |}.

Definition complete_step (l : DelayedLock) : DelayedLock :=
  let n := (pendingSteps l - 1)%Z in
  {| pendingSteps := n;
     synchronousDone := synchronousDone l;
     releases := if (n =? 0)%Z && synchronousDone l
                 then S (releases l) else releases l |}.

Definition finish_synchronous_portion (l : DelayedLock) : DelayedLock :=
  {| pendingSteps := pendingSteps l;
     synchronousDone := true;
     releases := if (pendingSteps l =? 0)%Z
                 then S (releases l) else releases l |}.

(** What the tasks do to the shared objects, in order. *)
Inductive Event :=
  | EvIncSteps (requestIndex : nat)
  | EvGo (requestIndex : nat)
  | EvWrite (requestIndex : nat) (err : option string)
  | EvUnlock (who : Caller)
  | EvSend (requestIndex : nat) (response : nat).

(** The goroutine started for an asynchronous item: the variables its
    closure captured. *)
Record AsyncWrite := {
  aw_requestIndex : nat;
  aw_responseObject : nat;
  aw_object : Object;
  aw_UUID : string
}.

(** The outside world of the handlers, over a connector state [C] (the
    connector together with the schema its lock guards). *)
Record Env (C : Type) := {
  ActionsAllowed : KeyTokenGetResponse -> C -> bool;
  ValidateActionBody : ObjectCreate -> C -> KeyTokenGetResponse -> option string;
  ValidateThingBody : ObjectCreate -> C -> KeyTokenGetResponse -> option string;
  AddAction : C -> Object -> string -> C * option string;
  AddThing : C -> Object -> string -> C * option string;
  GenerateUUID : nat -> string;
  NowUnix : nat -> Z;
  GetHostAddress : string
}.
Arguments ActionsAllowed {C} _ _ _.
Arguments ValidateActionBody {C} _ _ _ _.
Arguments ValidateThingBody {C} _ _ _ _.
Arguments AddAction {C} _ _ _ _.
Arguments AddThing {C} _ _ _ _.
Arguments GenerateUUID {C} _ _.
Arguments NowUnix {C} _ _.
Arguments GetHostAddress {C} _.

(** Everything the goroutines of one request share.  Response objects live
    in [heap] and are named by their position; [requestResults] is the
    buffer of the result channel and [capacity] its size; [finished] lists
    the items whose task has returned (the wait group); [spawned] holds the
    asynchronous writes that were started and have not run yet; [ticks]
    counts the calls to the UUID generator and the clock. *)
Record World (C : Type) := {
  connector : C;
  lock : DelayedLock;
  heap : list GetResponse;
  requestResults : list (nat * nat);
  capacity : nat;
  finished : list nat;
  spawned : list AsyncWrite;
  trace : list Event;
  ticks : nat
}.
Arguments connector {C} _.
Arguments lock {C} _.
Arguments heap {C} _.
Arguments requestResults {C} _.
Arguments capacity {C} _.
Arguments finished {C} _.
Arguments spawned {C} _.
Arguments trace {C} _.
Arguments ticks {C} _.

(** Why a run does not go on. *)
Inductive Failure :=
  | SendBlocks (requestIndex : nat)
  | WaitBlocks
  | IndexOutOfRange (requestIndex : nat).

Inductive Run (A : Type) :=
  | Done (a : A)
  | Stuck (why : Failure).
Arguments Done {A} a.
Arguments Stuck {A} why.

(** Computations on the shared world that may get stuck. *)
Definition M (C A : Type) : Type := World C -> Run (A * World C).

#[export] Instance M_ret {C} : MRet (M C) := fun A a w => Done (a, w).

#[export] Instance M_bind {C} : MBind (M C) := fun A B k m w =>
  match m w with
  | Done (a, w') => k a w'
  | Stuck why => Stuck why
  end.

(** Field updates of the world. *)
Definition set_connector {C} (c : C) (w : World C) : World C :=
  {| connector := c; lock := lock w; heap := heap w;
     requestResults := requestResults w; capacity := capacity w;
     finished := finished w; spawned := spawned w; trace := trace w;
     ticks := ticks w |}.

Definition set_lock {C} (l : DelayedLock) (w : World C) : World C :=
  {| connector := connector w; lock := l; heap := heap w;
     requestResults := requestResults w; capacity := capacity w;
     finished := finished w; spawned := spawned w; trace := trace w;
     ticks := ticks w |}.

Definition set_heap {C} (h : list GetResponse) (w : World C) : World C :=
  {| connector := connector w; lock := lock w; heap := h;
     requestResults := requestResults w; capacity := capacity w;
     finished := finished w; spawned := spawned w; trace := trace w;
     ticks := ticks w |}.

Definition set_channel {C} (buf : list (nat * nat)) (cap : nat) (w : World C) : World C :=
  {| connector := connector w; lock := lock w; heap := heap w;
     requestResults := buf; capacity := cap;
     finished := finished w; spawned := spawned w; trace := trace w;
     ticks := ticks w |}.

Definition set_finished {C} (f : list nat) (w : World C) : World C :=
  {| connector := connector w; lock := lock w; heap := heap w;
     requestResults := requestResults w; capacity := capacity w;
     finished := f; spawned := spawned w; trace := trace w;
     ticks := ticks w |}.

Definition set_spawned {C} (sp : list AsyncWrite) (w : World C) : World C :=
  {| connector := connector w; lock := lock w; heap := heap w;
     requestResults := requestResults w; capacity := capacity w;
     finished := finished w; spawned := sp; trace := trace w;
     ticks := ticks w |}.

Definition set_trace {C} (t : list Event) (w : World C) : World C :=
  {| connector := connector w; lock := lock w; heap := heap w;
     requestResults := requestResults w; capacity := capacity w;
     finished := finished w; spawned := spawned w; trace := t;
     ticks := ticks w |}.

Definition set_ticks {C} (n : nat) (w : World C) : World C :=
  {| connector := connector w; lock := lock w; heap := heap w;
     requestResults := requestResults w; capacity := capacity w;
     finished := finished w; spawned := spawned w; trace := trace w;
     ticks := n |}.

(** [createErrorResponseObject]: one error item per message, in order. *)
Fixpoint appendMessages (messages : list string) (er : list string) : list string :=
  match messages with
  | [] => er
  | message :: rest => appendMessages rest (er ++ [message])
  end.

Definition createErrorResponseObject (messages : list string) : list string :=
  appendMessages messages [].

(** [_, ok := fieldsToKeep[name]]. *)
Definition keeps (fieldsToKeep : gmap string Z) (name : string) : bool :=
  match fieldsToKeep !! name with
  | Some _ => true
  | None => false
  end.

Definition setStatus (s : ResultStatus) (r : GetResponse) : GetResponse :=
  {| Obj := Obj r; ObjectID := ObjectID r;
     ObjResult := {| Status := Some s; Errors := Errors (ObjResult r) |} |}.

Definition setErrors (e : list string) (r : GetResponse) : GetResponse :=
  {| Obj := Obj r; ObjectID := ObjectID r;
     ObjResult := {| Status := Status (ObjResult r); Errors := Some e |} |}.

Section Handlers.
Context {C : Type} (env : Env C).

Definition emit (e : Event) : M C unit :=
  fun w => Done (tt, set_trace (trace w ++ [e]) w).

Definition tick : M C nat :=
  fun w => Done (ticks w, set_ticks (S (ticks w)) w).

Definition connutils_GenerateUUID : M C string :=
  n ← tick; mret (GenerateUUID env n).

Definition connutils_NowUnix : M C Z :=
  n ← tick; mret (NowUnix env n).

(** Allocation of a response object. *)
Definition new (r : GetResponse) : M C nat :=
  fun w => Done (length (heap w), set_heap (heap w ++ [r]) w).

(** An assignment through the pointer [responseObject]. *)
Definition assign (responseObject : nat) (f : GetResponse -> GetResponse) : M C unit :=
  fun w => Done (tt, set_heap (alter f responseObject (heap w)) w).

Definition IncSteps (requestIndex : nat) : M C unit :=
  (fun w => Done (tt, set_lock (register_pending_step (lock w)) w)) ;;
  emit (EvIncSteps requestIndex).

(** [DelayedLock.Unlock()]: the handler's deferred call ends the
    synchronous portion, the call of an asynchronous write completes its
    step. *)
Definition Unlock (who : Caller) : M C unit :=
  (fun w =>
     let l := match who with
              | ByHandler => finish_synchronous_portion (lock w)
              | ByAsyncWrite _ => complete_step (lock w)
              end in
     Done (tt, set_lock l w)) ;;
  emit (EvUnlock who).

(** The [go func() { ... }()] statement. *)
Definition go (t : AsyncWrite) : M C unit :=
  (fun w => Done (tt, set_spawned (spawned w ++ [t]) w)) ;;
  emit (EvGo (aw_requestIndex t)).

(** [DBConnector.AddAction] or [DBConnector.AddThing]. *)
Definition connectorAdd (isThingsCreate : bool) (requestIndex : nat)
    (object : Object) (UUID : string) : M C (option string) :=
  fun w =>
    let '(c', err) :=
      (if isThingsCreate then AddThing env else AddAction env)
        (connector w) object UUID in
    Done (err, set_trace (trace w ++ [EvWrite requestIndex err]) (set_connector c' w)).

Definition validateBody (isThingsCreate : bool) (batchedRequest : ObjectCreate)
    (principal : KeyTokenGetResponse) : M C (option string) :=
  fun w =>
    Done ((if isThingsCreate then ValidateThingBody env else ValidateActionBody env)
            batchedRequest (connector w) principal, w).

(** A send on the buffered result channel; with the buffer full the sender
    blocks. *)
Definition send (requestIndex responseObject : nat) : M C unit :=
  fun w =>
    if (length (requestResults w) <? capacity w)%nat then
      emit (EvSend requestIndex responseObject)
        (set_channel (requestResults w ++ [(requestIndex, responseObject)])
                     (capacity w) w)
    else Stuck (SendBlocks requestIndex).

(** [wg.Done()]. *)
Definition wgDone (requestIndex : nat) : M C unit :=
  fun w => Done (tt, set_finished (finished w ++ [requestIndex]) w).

(** The goroutine of an asynchronous item. *)
Definition asyncWrite (isThingsCreate : bool) (t : AsyncWrite) : M C unit :=
  err ← connectorAdd isThingsCreate (aw_requestIndex t) (aw_object t) (aw_UUID t);
  match err with
  | Some e =>
      assign (aw_responseObject t) (setStatus FAILED) ;;
      assign (aw_responseObject t) (setErrors (createErrorResponseObject [e]))
  | None => mret tt
  end ;;
  Unlock (ByAsyncWrite (aw_requestIndex t)).

(** The task of one batch item.  The two source functions differ in the
    name of the id field and in the validation and connector calls, which
    [isThingsCreate] selects. *)
Definition handleBatchedCreateRequest (isThingsCreate : bool)
    (batchedRequest : ObjectCreate) (requestIndex : nat) (async : bool)
    (principal : KeyTokenGetResponse) (fieldsToKeep : gmap string Z) : M C unit :=
  UUID ← connutils_GenerateUUID;
  let url := GetHostAddress env in
  let keyRef := {| LocationURL := url; NrDollarCref := KeyID principal;
                   RefType := "Key" |} in
  creationTime ← (if keeps fieldsToKeep "creationtimeunix"
                   then connutils_NowUnix else mret 0%Z);
  let object :=
    {| AtContext := oc_AtContext batchedRequest;
       AtClass := if keeps fieldsToKeep "@class"
                  then oc_AtClass batchedRequest else "";
       Schema := if keeps fieldsToKeep "schema"
                 then Some (oc_Schema batchedRequest) else None;
       CreationTimeUnix := creationTime;
       LastUpdateTimeUnix := 0;
       Key := if keeps fieldsToKeep "key" then Some keyRef else None |} in
  let result := {| Status := None; Errors := None |} in
  let idField := if isThingsCreate then "thingid" else "actionid" in
  responseObject ← new {| Obj := object;
                          ObjectID := if keeps fieldsToKeep idField then UUID else "";
                          ObjResult := result |};
  validatedErr ← validateBody isThingsCreate batchedRequest principal;
  match validatedErr with
  | Some e =>
      assign responseObject (setErrors (createErrorResponseObject [e])) ;;
      assign responseObject (setStatus FAILED)
  | None =>
      if async then
        IncSteps requestIndex ;;
        assign responseObject (setStatus PENDING) ;;
        go {| aw_requestIndex := requestIndex;
              aw_responseObject := responseObject;
              aw_object := object;
              aw_UUID := UUID |}
      else
        err ← connectorAdd isThingsCreate requestIndex object UUID;
        match err with
        | Some e =>
            assign responseObject (setStatus FAILED) ;;
            assign responseObject (setErrors (createErrorResponseObject [e]))
        | None => mret tt
        end
  end ;;
  send requestIndex responseObject ;;
  wgDone requestIndex.

Definition handleBatchedActionsCreateRequest :=
  handleBatchedCreateRequest false.

Definition handleBatchedThingsCreateRequest :=
  handleBatchedCreateRequest true.

(** The scheduler's choices between the loop that starts the item tasks and
    the return of [wg.Wait()]: the task of an item runs, or an asynchronous
    write that was started runs.  A choice that names no runnable goroutine
    is skipped. *)
Inductive Step :=
  | RunItem (requestIndex : nat)
  | RunAsync (requestIndex : nat).

Fixpoint takeSpawned (requestIndex : nat) (sp : list AsyncWrite)
  : option (AsyncWrite * list AsyncWrite) :=
  match sp with
  | [] => None
  | t :: rest =>
      if (aw_requestIndex t =? requestIndex)%nat then Some (t, rest)
      else match takeSpawned requestIndex rest with
           | Some (t', rest') => Some (t', t :: rest')
           | None => None
           end
  end.

Definition runStep (isThingsCreate : bool) (params_Body : Body)
    (principal : KeyTokenGetResponse) (fieldsToKeep : gmap string Z) (s : Step)
  : M C unit :=
  fun w =>
    match s with
    | RunItem requestIndex =>
        match Items params_Body !! requestIndex with
        | Some batchedRequest =>
            if bool_decide (requestIndex ∈ finished w) then Done (tt, w)
            else handleBatchedCreateRequest isThingsCreate batchedRequest
                   requestIndex (Async params_Body) principal fieldsToKeep w
        | None => Done (tt, w)
        end
    | RunAsync requestIndex =>
        match takeSpawned requestIndex (spawned w) with
        | Some (t, rest) => asyncWrite isThingsCreate t (set_spawned rest w)
        | None => Done (tt, w)
        end
    end.

Fixpoint runSchedule (isThingsCreate : bool) (params_Body : Body)
    (principal : KeyTokenGetResponse) (fieldsToKeep : gmap string Z)
    (sched : list Step) : M C unit :=
  match sched with
  | [] => mret tt
  | s :: rest =>
      runStep isThingsCreate params_Body principal fieldsToKeep s ;;
      runSchedule isThingsCreate params_Body principal fieldsToKeep rest
  end.

(** [wg.Wait()] returns once every item task has called [wg.Done()]. *)
Definition wgWait (amountOfBatchedRequests : nat) : M C unit :=
  fun w =>
    if (length (finished w) =? amountOfBatchedRequests)%nat then Done (tt, w)
    else Stuck WaitBlocks.

(** The loop over the closed channel: each result is stored at the index it
    carries.  An index outside the slice is a run-time panic. *)
Fixpoint collectResults (results : list (nat * nat))
    (batchedRequestResponse : list (option nat)) : Run (list (option nat)) :=
  match results with
  | [] => Done batchedRequestResponse
  | (requestIndex, response) :: rest =>
      if (requestIndex <? length batchedRequestResponse)%nat then
        collectResults rest (<[requestIndex := Some response]> batchedRequestResponse)
      else Stuck (IndexOutOfRange requestIndex)
  end.

(** The batch-create handler.  [sched] is the interleaving of the
    goroutines up to the return of [wg.Wait()]; the payload of the OK
    response is the slice of response pointers. *)
Definition BatchingCreateHandler (isThingsCreate : bool)
    (principal : KeyTokenGetResponse) (params_Body : Body) (sched : list Step)
  : M C Responder :=
  (fun w => Done (tt, set_lock delayed_unlock_New w)) ;;
  allowed ← (fun w => Done (ActionsAllowed env principal (connector w), w));
  if negb allowed then
    Unlock ByHandler ;; mret Forbidden
  else
    let amountOfBatchedRequests := length (Items params_Body) in
    if (amountOfBatchedRequests =? 0)%nat then
      Unlock ByHandler ;; mret (UnprocessableEntity [])
    else
      let fieldsToKeep :=
        determineResponseFields (BodyFields params_Body) isThingsCreate in
      (fun w => Done (tt, set_finished [] (set_channel [] amountOfBatchedRequests w))) ;;
      runSchedule isThingsCreate params_Body principal fieldsToKeep sched ;;
      wgWait amountOfBatchedRequests ;;
      batchedRequestResponse ←
        (fun w =>
           match collectResults (requestResults w)
                   (replicate amountOfBatchedRequests None) with
           | Done a => Done (a, w)
           | Stuck why => Stuck why
           end);
      Unlock ByHandler ;;
      mret (OK batchedRequestResponse).

Definition WeaviateBatchingActionsCreateHandler :=
  BatchingCreateHandler false.

Definition WeaviateBatchingThingsCreateHandler :=
  BatchingCreateHandler true.

End Handlers.

End Batch.

(** ** What the batch handlers are to establish *)

Module BatchSpec.
Import Batch.

(** What a response object keeps of the item it was built for. *)
Definition builtFrom (fieldsToKeep : gmap string Z) (batchedRequest : ObjectCreate)
    (o : Object) : Prop :=
  AtContext o = oc_AtContext batchedRequest
  /\ AtClass o = (if keeps fieldsToKeep "@class" then oc_AtClass batchedRequest else "")
  /\ Schema o = (if keeps fieldsToKeep "schema"
                 then Some (oc_Schema batchedRequest) else None).

(** What holds of the shared world between the steps of the goroutines:
    the channel has the size of the batch; every finished item is an index
    of the batch, finished once, and the channel holds one result for it,
    in the order of finishing; the result carries the index of its item
    and points to a response object built for that item. *)
Record Inv {C} (params_Body : Body) (fieldsToKeep : gmap string Z)
    (w : World C) : Prop := {
  inv_capacity : capacity w = length (Items params_Body);
  inv_nodup : NoDup (finished w);
  inv_bound : forall i, i ∈ finished w -> i < length (Items params_Body);
  inv_channel : (requestResults w).*1 = finished w;
  inv_objects : forall i loc, (i, loc) ∈ requestResults w ->
      exists item r, Items params_Body !! i = Some item /\ heap w !! loc = Some r
                     /\ builtFrom fieldsToKeep item (Obj r)
}.

(** What the response and the world are like when the handler answers:
    one entry per item, none nil; entry [i] points to a response object
    built for item [i], and is the pointer that arrived with index [i];
    the channel received one result per item and was never over its
    capacity. *)
Definition Delivered {C} (params_Body : Body) (fieldsToKeep : gmap string Z)
    (payload : list (option nat)) (w : World C) : Prop :=
  length payload = length (Items params_Body)
  /\ (forall i item, Items params_Body !! i = Some item ->
        exists loc r, payload !! i = Some (Some loc)
                      /\ (i, loc) ∈ requestResults w
                      /\ heap w !! loc = Some r
                      /\ builtFrom fieldsToKeep item (Obj r))
  /\ (requestResults w).*1 ≡ₚ seq 0 (length (Items params_Body))
  /\ length (requestResults w) = length (Items params_Body)
  /\ capacity w = length (Items params_Body).

(** The handler leaves before any task exists: only the lock is taken and
    given back. *)
Definition Untouched {C} (w0 w' : World C) : Prop :=
  connector w' = connector w0
  /\ heap w' = heap w0
  /\ spawned w' = spawned w0
  /\ requestResults w' = requestResults w0
  /\ finished w' = finished w0
  /\ trace w' = trace w0 ++ [EvUnlock ByHandler].

(** The validation and the connector call of each kind of batch. *)
Definition validationOf {C} (env : Env C) (isThingsCreate : bool) :=
  if isThingsCreate then ValidateThingBody env else ValidateActionBody env.

Definition addOf {C} (env : Env C) (isThingsCreate : bool) :=
  if isThingsCreate then AddThing env else AddAction env.

(** The response object after a failed asynchronous write. *)
Definition failedWith (e : string) (r : GetResponse) : GetResponse :=
  {| Obj := Obj r; ObjectID := ObjectID r;
     ObjResult := {| Status := Some FAILED; Errors := Some [e] |} |}.

End BatchSpec.

(** ** Collaborators and requests for the examples *)

Module Examples.
Import Peers GraphQL Batch.

Definition alice : PeerUpdate :=
  {| pu_ID := "1"; pu_Name := "alice"; pu_URI := "http://a"; pu_SchemaHash := "h1" |}.
Definition genesis : PeerUpdate :=
  {| pu_ID := "0"; pu_Name := "genesis"; pu_URI := "http://g"; pu_SchemaHash := "h0" |}.

Definition q1 : GraphQLQuery :=
  {| Query := "{ Local { Get } }"; OperationName := ""; QVariables := VarsNil |}.

(** A published provider, a registry whose listing fails. *)
Definition published : ServerState unit unit :=
  {| graphQL := Some tt; messages := []; builds := [] |}.

Definition unreachable : list Peer :=
  [ {| ID := "9"; Name := "unreachable"; URI := "http://u"; SchemaHash := "" |} ].

Definition buildOk (_ : unit) (_ : list Peer) : unit + string := inl tt.

(** A connector for examples: the list of stored objects.  An item of class
    "Bad" fails validation; writing an item of context "full" fails; the key
    "reader" may not write. *)
Definition listEnv : Env (list (Object * string)) :=
  {| ActionsAllowed := fun p _ => negb (String.eqb (KeyID p) "reader");
     ValidateActionBody := fun r _ _ =>
       if String.eqb (oc_AtClass r) "Bad" then Some "class not in schema" else None;
     ValidateThingBody := fun r _ _ =>
       if String.eqb (oc_AtClass r) "Bad" then Some "class not in schema" else None;
     AddAction := fun c o u =>
       if String.eqb (AtContext o) "full" then (c, Some "connector write failed")
       else (c ++ [(o, u)], None);
     AddThing := fun c o u =>
       if String.eqb (AtContext o) "full" then (c, Some "connector write failed")
       else (c ++ [(o, u)], None);
     GenerateUUID := fun n => String (ascii_of_nat (48 + n)) "";
     NowUnix := fun n => Z.of_nat (1000 + n);
     GetHostAddress := "http://localhost" |}.

Definition emptyWorld : World (list (Object * string)) :=
  {| connector := []; lock := delayed_unlock_New; heap := [];
     requestResults := []; capacity := 0; finished := []; spawned := [];
     trace := []; ticks := 0 |}.

Definition writer : KeyTokenGetResponse := {| KeyID := "writer" |}.
Definition reader : KeyTokenGetResponse := {| KeyID := "reader" |}.

Definition item (ctx cls : string) : ObjectCreate :=
  {| oc_AtContext := ctx; oc_AtClass := cls; oc_Schema := "{}" |}.

Definition body3 (async : bool) : Body :=
  {| Items := [item "c0" "City"; item "c1" "Bad"; item "full" "City"];
     BodyFields := []; Async := async |}.

Definition emptyBody : Body := {| Items := []; BodyFields := []; Async := false |}.

Definition oneBadOneGood : Body :=
  {| Items := [item "c0" "Bad"; item "c1" "City"]; BodyFields := []; Async := false |}.

Definition schedule201 : list Step := [RunItem 2; RunItem 0; RunItem 1].

Definition roomyWorld : World (list (Object * string)) :=
  set_channel [] 1 emptyWorld.

(** The response of a run, and for an OK response the context and the
    result of the response object behind every entry. *)
Definition response (r : Run (Responder * World (list (Object * string)))) :=
  match r with Done (a, _) => Some a | Stuck _ => None end.

Definition results (r : Run (Responder * World (list (Object * string)))) :=
  match r with
  | Done (OK p, w) =>
      (fun o => match o with
                | Some l => match heap w !! l with
                            | Some g => Some (AtContext (Obj g), ObjResult g)
                            | None => None
                            end
                | None => None
                end) <$> p
  | _ => []
  end.

(** How many entries report the status SUCCESS. *)
Definition reportsSuccess (o : option (string * Result)) : bool :=
  match o with
  | Some (_, {| Status := Some SUCCESS |}) => true
  | _ => false
  end.

Definition successCount (l : list (option (string * Result))) : nat :=
  length (List.filter reportsSuccess l).

End Examples.

(** ** The GraphQL batch handler *)

Module GraphQLBatch.
Import GraphQL.

Inductive BatchResponder :=
  | WeaviateGraphqlBatchUnprocessableEntity (payload : list string)
  | WeaviateGraphqlBatchOK (payload : list (option GraphQLResponse)).

(** How a run of the handler ends: it answers, a goroutine panics (which
    ends the process), the reassembly indexes outside the slice, or the
    handler waits for ever. *)
Inductive BatchRun :=
  | Answered (r : BatchResponder)
  | Crashed (p : PanicValue)
  | OutOfRange
  | Waits.

(** The state the request goroutines share: the buffer of the result
    channel and the indices of the requests whose goroutine has returned. *)
Record Shared := {
  requestResults : list UnbatchedRequestResponse;
  done : list nat
}.

(** The loop over the closed channel. *)
Fixpoint fillResponses (results : list UnbatchedRequestResponse)
    (batchedRequestResponse : list (option GraphQLResponse))
  : option (list (option GraphQLResponse)) :=
  match results with
  | [] => Some batchedRequestResponse
  | unbatchedRequestResult :: rest =>
      let i := RequestIndex unbatchedRequestResult in
      if (i <? length batchedRequestResponse)%nat then
        fillResponses rest
          (<[i := Some (Response unbatchedRequestResult)]> batchedRequestResponse)
      else None
  end.

Section Handler.
Context {G : Type} `{Provider G}.

(** The goroutines run to completion one after the other in the order
    [order]; an entry that names no request, or one that has returned, is
    skipped.  The result is the shared state, or the panic of the first
    goroutine that panics, or [Waits] when a send finds the channel
    full. *)
Fixpoint runRequests (graphQL : option G) (params_Body : list GraphQLQuery)
    (amountOfBatchedRequests : nat) (order : list nat) (sh : Shared)
  : Shared + BatchRun :=
  match order with
  | [] => inl sh
  | requestIndex :: rest =>
      match params_Body !! requestIndex with
      | None => runRequests graphQL params_Body amountOfBatchedRequests rest sh
      | Some unbatchedRequest =>
          if bool_decide (requestIndex ∈ done sh) then
            runRequests graphQL params_Body amountOfBatchedRequests rest sh
          else
            match handleUnbatchedGraphQLRequest graphQL unbatchedRequest requestIndex with
            | Panicked p => inr (Crashed p)
            | Returned m =>
                if (length (requestResults sh) <? amountOfBatchedRequests)%nat then
                  runRequests graphQL params_Body amountOfBatchedRequests rest
                    {| requestResults := requestResults sh ++ [m];
                       done := done sh ++ [requestIndex] |}
                else inr Waits
            end
      end
  end.

Definition GraphqlWeaviateGraphqlBatchHandler (graphQL : option G)
    (params_Body : list GraphQLQuery) (principal : Principal) (order : list nat)
  : BatchRun :=
  match assertPrincipal principal with
  | Panicked p => Crashed p
  | Returned _ =>
      let amountOfBatchedRequests := length params_Body in
      if (amountOfBatchedRequests =? 0)%nat then
        Answered (WeaviateGraphqlBatchUnprocessableEntity [])
      else
        match runRequests graphQL params_Body amountOfBatchedRequests order
                {| requestResults := []; done := [] |} with
        | inr stop => stop
        | inl sh =>
            if (length (done sh) =? amountOfBatchedRequests)%nat then
              match fillResponses (requestResults sh)
                      (replicate amountOfBatchedRequests None) with
              | Some batchedRequestResponse =>
                  Answered (WeaviateGraphqlBatchOK batchedRequestResponse)
              | None => OutOfRange
              end
            else Waits
        end
  end.

End Handler.

End GraphQLBatch.

(** ** What the GraphQL batch handler keeps between goroutines *)

Module GraphQLBatchSpec.
Import GraphQL GraphQLBatch.

(** Between two goroutines: the requests that have returned are requests of
    the batch, each once; the channel holds their messages in the order of
    returning, and each message is what the handler of its request
    returns. *)
Record Inv {G} `{Provider G} (graphQL : option G)
    (params_Body : list GraphQLQuery) (sh : Shared) : Prop := {
  ginv_nodup : NoDup (done sh);
  ginv_bound : forall i, i ∈ done sh -> i < length params_Body;
  ginv_channel : RequestIndex <$> requestResults sh = done sh;
  ginv_messages : forall m, m ∈ requestResults sh ->
      exists req, params_Body !! RequestIndex m = Some req
                  /\ handleUnbatchedGraphQLRequest graphQL req (RequestIndex m)
                     = Returned m
}.

(** A request with an empty query, for the examples. *)
Definition q2 : GraphQLQuery :=
  {| Query := ""; OperationName := ""; QVariables := VarsNil |}.

End GraphQLBatchSpec.

(** ** Key and token authentication *)

Module Auth.

(** [keyTokenHeader], the JSON value of both API headers. *)
Record keyTokenHeader := {
  Key : string;
  Token : string
}.

(** [models.KeyGetResponse], as far as the handling reads it. *)
Record KeyGetResponse := {
  KeyID : string;
  KeyExpiresUnix : Z
}.

(** [models.KeyTokenGetResponse]. *)
Record KeyTokenGetResponse := {
  TokenKey : KeyGetResponse;
  TokenValue : string
}.

(** [errors.New(code, message)]. *)
Record APIError := {
  Code : Z;
  ErrorMessage : string
}.

(** What the handling does to the database lock and the connector. *)
Inductive AuthEvent :=
  | EvConnectorLock
  | EvUnlock
  | EvValidateToken (key : string).

(** The collaborators: [json.Unmarshal] into a header value (its error is
    dropped by the caller, the value decoded so far stays), the connector's
    [ValidateToken] (the hashed token and the key it finds, or an error
    message), [connutils.TokenHashCompare], the clock, and the three
    messages of [connutils]. *)
Record Env := {
  json_Unmarshal : string -> keyTokenHeader -> keyTokenHeader;
  ValidateToken : string -> (string * KeyGetResponse) + string;
  TokenHashCompare : string -> string -> bool;
  NowUnix : Z;
  StaticMissingHeader : string;
  StaticInvalidToken : string;
  StaticKeyExpired : string
}.

Definition errors_New (code : Z) (message : string) : APIError :=
  {| Code := code; ErrorMessage := message |}.

(** The result and the events, the deferred unlock last. *)
Definition headerAPIKeyHandling (env : Env) (keyToken : string)
  : (KeyTokenGetResponse + APIError) * list AuthEvent :=
  let locked := [EvConnectorLock] in
  let kth := json_Unmarshal env keyToken {| Key := ""; Token := "" |} in
  if String.eqb (Key kth) "" || String.eqb (Token kth) "" then
    (inr (errors_New 401 (StaticMissingHeader env)), locked ++ [EvUnlock])
  else
    let events := locked ++ [EvValidateToken (Key kth)] in
    match ValidateToken env (Key kth) with
    | inr err => (inr (errors_New 401 err), events ++ [EvUnlock])
    | inl (hashed, validatedKey) =>
        if negb (TokenHashCompare env hashed (Token kth)) then
          (inr (errors_New 401 (StaticInvalidToken env)), events ++ [EvUnlock])
        else
          let currentUnix := NowUnix env in
          if negb (KeyExpiresUnix validatedKey =? -1)%Z
             && (KeyExpiresUnix validatedKey <? currentUnix)%Z then
            (inr (errors_New 401 (StaticKeyExpired env)), events ++ [EvUnlock])
          else
            (inl {| TokenKey := validatedKey; TokenValue := Token kth |},
             events ++ [EvUnlock])
    end.

(** A key store for examples: the key "k1" has the hashed token "h(t1)" and
    never expires, the key "k2" has the hashed token "h(t2)" and expired at
    50; the clock shows 100.  The header value is "key/token". *)
Fixpoint splitSlash (s : string) (acc : string) : string * string :=
  match s with
  | EmptyString => (acc, "")
  | String c rest =>
      if Ascii.eqb c "/" then (acc, rest)
      else splitSlash rest (acc +:+ String c "")
  end.

Definition exampleEnv : Env :=
  {| json_Unmarshal := fun s _ =>
       let '(k, t) := splitSlash s "" in {| Key := k; Token := t |};
     ValidateToken := fun k =>
       if String.eqb k "k1" then inl ("h(t1)", {| KeyID := "k1"; KeyExpiresUnix := -1 |})
       else if String.eqb k "k2" then inl ("h(t2)", {| KeyID := "k2"; KeyExpiresUnix := 50 |})
       else inr "key not found";
     TokenHashCompare := fun hashed t => String.eqb hashed ("h(" +:+ t +:+ ")");
     NowUnix := 100;
     StaticMissingHeader := "missing header";
     StaticInvalidToken := "invalid token";
     StaticKeyExpired := "key expired" |}.

End Auth.

(** ** The HTTP middlewares *)

Module Middleware.
Import Auth.

(** [http.Header] under canonical keys. *)
Definition Header_Get (h : gmap string (list string)) (key : string) : string :=
  match h !! key with
  | Some (v :: _) => v
  | _ => ""
  end.

Definition Header_Set (h : gmap string (list string)) (key value : string)
  : gmap string (list string) :=
  <[key := [value]]> h.

Definition X_API_KEY : string := "X-Api-Key".
Definition X_API_TOKEN : string := "X-Api-Token".

Record Request := {
  Method : string;
  URL : string;
  Header : gmap string (list string)
}.

(** What a handler leaves behind: the headers of the response writer, the
    messages given to [messaging], and the lines of the standard logger. *)
Record Exchange := {
  responseHeader : gmap string (list string);
  infoMessages : list string;
  logLines : list string
}.

Definition Handler : Type := Request -> Exchange -> Exchange.

Definition setRequestHeader (key value : string) (r : Request) : Request :=
  {| Method := Method r; URL := URL r; Header := Header_Set (Header r) key value |}.

Definition setResponseHeader (key value : string) (x : Exchange) : Exchange :=
  {| responseHeader := Header_Set (responseHeader x) key value;
     infoMessages := infoMessages x;
     logLines := logLines x |}.

Definition InfoMessage (msg : string) (x : Exchange) : Exchange :=
  {| responseHeader := responseHeader x;
     infoMessages := infoMessages x ++ [msg];
     logLines := logLines x |}.

Definition log_Printf (line : string) (x : Exchange) : Exchange :=
  {| responseHeader := responseHeader x;
     infoMessages := infoMessages x;
     logLines := logLines x ++ [line] |}.

(** [json_Marshal] is [json.Marshal] on a header value, its error
    dropped. *)
Definition setupMiddlewares (json_Marshal : keyTokenHeader -> string)
    (handler : Handler) : Handler :=
  fun r x =>
    let kth := {| Key := Header_Get (Header r) X_API_KEY;
                  Token := Header_Get (Header r) X_API_TOKEN |} in
    let jkth := json_Marshal kth in
    let r := setRequestHeader X_API_KEY jkth r in
    let r := setRequestHeader X_API_TOKEN jkth r in
    let x := InfoMessage "generated both headers X-API-KEY and X-API-TOKEN" x in
    handler r x.

Definition addLogging (Debug : bool) (next : Handler) : Handler :=
  fun r x =>
    let x := if Debug
             then log_Printf ("Received request: " +:+ Method r +:+ " " +:+ URL r) x
             else x in
    next r x.

Definition addPreflight (next : Handler) : Handler :=
  fun r x =>
    if String.eqb (Method r) "OPTIONS" then
      let x := setResponseHeader "Access-Control-Allow-Origin" "*" x in
      let x := setResponseHeader "Access-Control-Allow-Methods" "*" x in
      x
    else next r x.

(** [handleCORS], [graphiql] and [swagger] are the wrappers of the [cors],
    [graphiql] and [swagger_middleware] packages. *)
Definition setupGlobalMiddleware (handleCORS graphiql swagger : Handler -> Handler)
    (EnableDevUI Debug : bool) (handler : Handler) : Handler :=
  let handler := handleCORS handler in
  let handler := if EnableDevUI then swagger (graphiql handler) else handler in
  let handler := addLogging Debug handler in
  let handler := addPreflight handler in
  handler.

(** Requests and an inner handler for examples. *)
Definition options : Request :=
  {| Method := "OPTIONS"; URL := "/weaviate/v1/things"; Header := ∅ |}.

Definition getThings : Request :=
  {| Method := "GET"; URL := "/weaviate/v1/things";
     Header := <[X_API_KEY := ["k1"]]> (<[X_API_TOKEN := ["t1"]]> ∅) |}.

Definition emptyExchange : Exchange :=
  {| responseHeader := ∅; infoMessages := []; logLines := [] |}.

(** An inner handler for examples: it notes the method it was called
    with. *)
Definition noting : Handler := fun r x => InfoMessage ("api " +:+ Method r) x.

(** A codec for examples, matching the header value of [Auth.exampleEnv]. *)
Definition slashMarshal (kth : keyTokenHeader) : string :=
  Key kth +:+ "/" +:+ Token kth.

End Middleware.

(** ** Key references and key deletion *)

Module Keys.
Import Batch.

(** [refType] is [connutils.RefTypeKey]. *)
Fixpoint appendRefs (url refType : string) (keyIDs : list string)
    (refs : list SingleRef) : list SingleRef :=
  match keyIDs with
  | [] => refs
  | keyID :: rest =>
      appendRefs url refType rest
        (refs ++ [ {| LocationURL := url; NrDollarCref := keyID;
                      RefType := refType |} ])
  end.

Definition generateMultipleRefObject (hostAddress refType : string)
    (keyIDs : list string) : list SingleRef :=
  let refs := [] in
  let url := hostAddress in
  appendRefs url refType keyIDs refs.

(** The connector calls of [deleteKey], on a connector state [C] and a key
    value [K]: [auth.GetKeyChildrenUUIDs] (its error is dropped),
    [GetKey] (which fills the response it is given) and [DeleteKey]. *)
Record KeyConnector (C K : Type) := {
  GetKeyChildrenUUIDs : C -> string -> list string;
  GetKey : C -> string -> K;
  DeleteKey : C -> K -> string -> C
}.
Arguments GetKeyChildrenUUIDs {C K} _ _ _.
Arguments GetKey {C K} _ _ _.
Arguments DeleteKey {C K} _ _ _ _.

Inductive KeyCall (K : Type) :=
  | CallGetKey (keyID : string)
  | CallDeleteKey (key : K) (keyID : string).
Arguments CallGetKey {K} keyID.
Arguments CallDeleteKey {K} key keyID.

Fixpoint deleteEach {C K} (conn : KeyConnector C K) (allIDs : list string)
    (c : C) (calls : list (KeyCall K)) : C * list (KeyCall K) :=
  match allIDs with
  | [] => (c, calls)
  | keyID :: rest =>
      let key := GetKey conn c keyID in
      let c' := DeleteKey conn c key keyID in
      deleteEach conn rest c' (calls ++ [CallGetKey keyID; CallDeleteKey key keyID])
  end.

Definition deleteKey {C K} (conn : KeyConnector C K) (c : C)
    (calls : list (KeyCall K)) (parentUUID : string) : C * list (KeyCall K) :=
  let allIDs := GetKeyChildrenUUIDs conn c parentUUID in
  let allIDs := allIDs ++ [parentUUID] in
  deleteEach conn allIDs c calls.

(** The ids a call log deletes, in order. *)
Fixpoint deletedIDs {K} (calls : list (KeyCall K)) : list string :=
  match calls with
  | [] => []
  | CallDeleteKey _ keyID :: rest => keyID :: deletedIDs rest
  | CallGetKey _ :: rest => deletedIDs rest
  end.

(** A key store for examples: keys with their parent; deleting removes the
    entry. *)
Definition treeConnector : KeyConnector (list (string * string)) (option string) :=
  {| GetKeyChildrenUUIDs := fun c parent =>
       (List.filter (fun e => String.eqb (snd e) parent) c).*1;
     GetKey := fun c keyID =>
       snd <$> List.find (fun e => String.eqb (fst e) keyID) c;
     DeleteKey := fun c _ keyID =>
       List.filter (fun e => negb (String.eqb (fst e) keyID)) c |}.

End Keys.

(** ** The client reader of the schema dump *)

Module SchemaDumpClient.

(** An error of a validation: a validation error of [go-openapi/errors]
    (of type [V]), or any other error. *)
Inductive ValidateError (V : Type) :=
  | Validation (ve : V)
  | OtherError (message : string).
Arguments Validation {V} ve.
Arguments OtherError {V} message.

(** [WeaviateSchemaDumpOKBody] over the type [S] of [models.SemanticSchema];
    both parts are pointers. *)
Record WeaviateSchemaDumpOKBody (S : Type) := {
  Actions : option S;
  Things : option S
}.
Arguments Actions {S} _.
Arguments Things {S} _.

Section Validate.
Context {S V : Type}.
Context (SemanticSchema_Validate : S -> option (ValidateError V)).
Context (ValidateName : string -> V -> V).

(** [ValidateName] is the method of the validation error that names the
    field the error is about. *)
Definition validatePart (name : string) (part : option S)
  : option (ValidateError V) :=
  match part with
  | None => None
  | Some schema =>
      match SemanticSchema_Validate schema with
      | Some (Validation ve) => Some (Validation (ValidateName name ve))
      | Some err => Some err
      | None => None
      end
  end.

Definition validateActions (o : WeaviateSchemaDumpOKBody S) :=
  validatePart ("weaviateSchemaDumpOK" +:+ "." +:+ "actions") (Actions o).

Definition validateThings (o : WeaviateSchemaDumpOKBody S) :=
  validatePart ("weaviateSchemaDumpOK" +:+ "." +:+ "things") (Things o).

(** [Validate]: [None] is nil, [Some res] the composite validation error
    of the errors [res]. *)
Definition Validate (o : WeaviateSchemaDumpOKBody S)
  : option (list (ValidateError V)) :=
  let res := [] in
  let res := match validateActions o with
             | Some err => res ++ [err]
             | None => res
             end in
  let res := match validateThings o with
             | Some err => res ++ [err]
             | None => res
             end in
  if (0 <? length res)%nat then Some res else None.

(** The error of [consumer.Consume]. *)
Inductive ConsumeError :=
  | io_EOF
  | ConsumeFailed (message : string).

(** The second component of what [ReadResponse] returns. *)
Inductive ClientError :=
  | ConsumerError (message : string)
  | WeaviateSchemaDumpUnauthorized
  | APIError (OperationName : string) (Code : Z).

(** [consume] is [consumer.Consume] on the body of the response: it fills
    the payload it is given and may fail. *)
Definition readResponseOK
    (consume : WeaviateSchemaDumpOKBody S -> WeaviateSchemaDumpOKBody S * option ConsumeError)
  : WeaviateSchemaDumpOKBody S + string :=
  let payload := {| Actions := None; Things := None |} in
  match consume payload with
  | (_, Some (ConsumeFailed err)) => inr err
  | (payload', _) => inl payload'
  end.

Definition ReadResponse (code : Z)
    (consume : WeaviateSchemaDumpOKBody S -> WeaviateSchemaDumpOKBody S * option ConsumeError)
  : WeaviateSchemaDumpOKBody S + ClientError :=
  if (code =? 200)%Z then
    match readResponseOK consume with
    | inr err => inr (ConsumerError err)
    | inl result => inl result
    end
  else if (code =? 401)%Z then inr WeaviateSchemaDumpUnauthorized
  else inr (APIError "unknown error" code).

End Validate.

(** A schema for examples is its list of class names; a class without a
    name is a validation error (a pair of field name and message), a class
    named "?" any other error.  Naming an error sets the field name if the
    error has none. *)
Definition exampleValidate (classes : list string)
  : option (ValidateError (string * string)) :=
  if existsb (String.eqb "") classes then Some (Validation ("", "name is required"))
  else if existsb (String.eqb "?") classes then Some (OtherError "unreadable")
  else None.

Definition exampleValidateName (name : string) (ve : string * string)
  : string * string :=
  if String.eqb (fst ve) "" then (name, snd ve) else ve.

End SchemaDumpClient.

(** ** Further notions for the batch handlers *)

Module BatchMoreSpec.
Import Batch BatchSpec.

(** The object an item task builds from its request, given the time it
    read from the clock (0 when it did not read it). *)
Definition selectedObject {C} (env : Env C) (fieldsToKeep : gmap string Z)
    (principal : KeyTokenGetResponse) (batchedRequest : ObjectCreate)
    (creationTime : Z) : Object :=
  {| AtContext := oc_AtContext batchedRequest;
     AtClass := if keeps fieldsToKeep "@class"
                then oc_AtClass batchedRequest else "";
     Schema := if keeps fieldsToKeep "schema"
               then Some (oc_Schema batchedRequest) else None;
     CreationTimeUnix := creationTime;
     LastUpdateTimeUnix := 0;
     Key := if keeps fieldsToKeep "key"
            then Some {| LocationURL := GetHostAddress env;
                         NrDollarCref := KeyID principal;
                         RefType := "Key" |}
            else None |}.

Definition idField (isThingsCreate : bool) : string :=
  if isThingsCreate then "thingid" else "actionid".

(** A response object shows only the selected fields: the key reference
    (to this host and the principal's key) exactly when "key" is kept, and
    zero values for the class, the schema, the creation time and the id
    when they are not kept; the update time is always 0. *)
Definition Filtered {C} (env : Env C) (fieldsToKeep : gmap string Z)
    (isThingsCreate : bool) (principal : KeyTokenGetResponse)
    (r : GetResponse) : Prop :=
  Key (Obj r) = (if keeps fieldsToKeep "key"
                 then Some {| LocationURL := GetHostAddress env;
                              NrDollarCref := KeyID principal;
                              RefType := "Key" |}
                 else None)
  /\ LastUpdateTimeUnix (Obj r) = 0%Z
  /\ (keeps fieldsToKeep "@class" = false -> AtClass (Obj r) = "")
  /\ (keeps fieldsToKeep "schema" = false -> Schema (Obj r) = None)
  /\ (keeps fieldsToKeep "creationtimeunix" = false -> CreationTimeUnix (Obj r) = 0%Z)
  /\ (keeps fieldsToKeep (idField isThingsCreate) = false -> ObjectID r = "").

(** Counting events of a trace and pending writes of an item. *)
Definition isIncSteps (e : Event) : bool :=
  match e with EvIncSteps _ => true | _ => false end.

Definition isGo (e : Event) : bool :=
  match e with EvGo _ => true | _ => false end.

Definition isAsyncUnlock (e : Event) : bool :=
  match e with EvUnlock (ByAsyncWrite _) => true | _ => false end.

Definition isHandlerUnlock (e : Event) : bool :=
  match e with EvUnlock ByHandler => true | _ => false end.

Definition isWriteOf (requestIndex : nat) (e : Event) : bool :=
  match e with EvWrite i _ => (i =? requestIndex)%nat | _ => false end.

Definition count (p : Event -> bool) (t : list Event) : nat :=
  length (List.filter p t).

Definition pendingOf (requestIndex : nat) (sp : list AsyncWrite) : nat :=
  length (List.filter (fun t => (aw_requestIndex t =? requestIndex)%nat) sp).

(** The world the handler starts the item tasks in. *)
Definition started {C} (amount : nat) (w0 : World C) : World C :=
  set_finished [] (set_channel [] amount (set_lock delayed_unlock_New w0)).

End BatchMoreSpec.

(** ** More requests for the examples *)

Module MoreExamples.
Import Batch Examples.

(** A one-item batch that asks for the key field only. *)
Definition keyOnlyBody : Body :=
  {| Items := [item "c0" "City"]; BodyFields := ["key"]; Async := false |}.

(** An interleaving of the three-item batch in which the asynchronous
    write of item 2 runs before the handler answers. *)
Definition scheduleWithWrite : list Step :=
  [RunItem 2; RunItem 0; RunAsync 2; RunItem 1].

(** The world of a run that answered. *)
Definition finalWorld {C} (w0 : World C) (r : Run (Responder * World C)) : World C :=
  match r with
  | Done (_, w) => w
  | Stuck _ => w0
  end.

End MoreExamples.

(** * Properties *)

Module LimitProps.
Import Limit.
Local Open Scope Z_scope.

Example float64_small : float64 100 = 100.
Proof. reflexivity. Qed.

Example float64_2p53_1 : float64 9007199254740993 = 9007199254740992.
Proof. vm_compute. reflexivity. Qed.

Example float64_2p53_3 : float64 9007199254740995 = 9007199254740996.
Proof. vm_compute. reflexivity. Qed.

Example float64_neg : float64 (-9007199254740995) = -9007199254740996.
Proof. vm_compute. reflexivity. Qed.

Example float64_max : float64 maxInt64 = 2 ^ 63.
Proof. vm_compute. reflexivity. Qed.

(** The integer model of the conversion agrees with binary64 hardware
    arithmetic on the values used below. *)
Example float64_is_binary64 :
  forallb (fun x => match binary64_of_int x with
                    | Some y => y =? float64 x
                    | None => false
                    end)
    [0; 1; 100; 9007199254740991; 9007199254740992; 9007199254740993;
     9007199254740994; 9007199254740995; 9007199254740997;
     4611686018427387905; 9223372036854775807] = true.
Proof. vm_compute. reflexivity. Qed.

Lemma float64_exact x : Z.abs x < 2 ^ 53 -> float64 x = x.
Proof.
  intros H. unfold float64.
  destruct (Z.ltb_spec (Z.abs x) (2 ^ 53)); [reflexivity | lia].
Qed.

(** Where both conversions are exact the helper is the integer minimum. *)
Lemma getLimit_exact_range Limit p :
  Z.abs Limit < 2 ^ 53 ->
  match p with Some v => Z.abs v < 2 ^ 53 | None => True end ->
  getLimit Limit p = match p with Some v => Z.min v Limit | None => Limit end.
Proof.
  intros HL Hp. unfold getLimit, math_Min, int_of_float64.
  destruct p as [v|].
  - rewrite !float64_exact by assumption.
    assert (Hb : 2 ^ 53 < 2 ^ 63) by (vm_compute; reflexivity).
    unfold minInt64, maxInt64.
    destruct (Z.ltb_spec v Limit).
    + rewrite Z.min_l by lia.
      destruct (Z.leb_spec (- 2 ^ 63) v), (Z.leb_spec v (2 ^ 63 - 1)); simpl; lia.
    + rewrite Z.min_r by lia.
      destruct (Z.leb_spec (- 2 ^ 63) Limit), (Z.leb_spec Limit (2 ^ 63 - 1)); simpl; lia.
  - rewrite !float64_exact by assumption.
    rewrite Z.ltb_irrefl.
    assert (Hb : 2 ^ 53 < 2 ^ 63) by (vm_compute; reflexivity).
    unfold minInt64, maxInt64.
    destruct (Z.leb_spec (- 2 ^ 63) Limit), (Z.leb_spec Limit (2 ^ 63 - 1)); simpl; lia.
Qed.

(** The limits of the range: both conversions exact, result is the minimum. *)
Example getLimit_small_param : getLimit 100 (Some 20) = 20.
Proof. reflexivity. Qed.

Example getLimit_large_param : getLimit 100 (Some 5000) = 100.
Proof. reflexivity. Qed.

Example getLimit_no_param : getLimit 100 None = 100.
Proof. reflexivity. Qed.

(** C9.  getLimit is meant to return the minimum of the request's
    max-results parameter and the configured limit, and the configured
    limit itself without a parameter, so never more than the limit.  The
    code compares through float64: with the limit 9007199254740995
    (2^53+3) and no parameter it returns 9007199254740996, which exceeds
    the limit; with the limit 9007199254740994 and the parameter
    9007199254740993 it returns 9007199254740992, which is not the minimum
    of the two. *)
Theorem getLimit_float64_rounding :
  is_int64 9007199254740995
  /\ getLimit 9007199254740995 None = 9007199254740996
  /\ getLimit 9007199254740995 None > 9007199254740995
  /\ is_int64 9007199254740993
  /\ getLimit 9007199254740994 (Some 9007199254740993) = 9007199254740992
  /\ getLimit 9007199254740994 (Some 9007199254740993)
       <> Z.min 9007199254740993 9007199254740994.
Proof.
  unfold is_int64. repeat split; try (vm_compute; congruence).
Qed.

End LimitProps.

Module FieldsProps.
Import Fields.

Example fields_none_actions :
  dom (determineResponseFields [] false) = defaultFields false.
Proof. vm_compute. reflexivity. Qed.

Example fields_key_only :
  determineResponseFields ["Key"; "KEY"] true = {[ "key" := 0%Z ]}.
Proof. vm_compute. reflexivity. Qed.

Example fields_mixed_all :
  dom (determineResponseFields ["key"; "aLL"] true) = defaultFields true.
Proof. vm_compute. reflexivity. Qed.

Lemma lower_ascii_a c : lower_ascii c = "a"%char <-> c = "a"%char \/ c = "A"%char.
Proof.
  split.
  - destruct c as [[] [] [] [] [] [] [] []]; vm_compute; intros H;
      first [discriminate H | left; reflexivity | right; reflexivity].
  - intros [-> | ->]; reflexivity.
Qed.

Lemma lower_ascii_l c : lower_ascii c = "l"%char <-> c = "l"%char \/ c = "L"%char.
Proof.
  split.
  - destruct c as [[] [] [] [] [] [] [] []]; vm_compute; intros H;
      first [discriminate H | left; reflexivity | right; reflexivity].
  - intros [-> | ->]; reflexivity.
Qed.

(** Lower-casing yields "all" exactly on the eight spellings of the word. *)
Lemma ToLower_all s : ToLower s = "all" <-> spellsAll s.
Proof.
  unfold spellsAll. split.
  - destruct s as [|c1 [|c2 [|c3 [|c4 s]]]]; simpl; try discriminate.
    intros H. injection H; intros H3 H2 H1.
    apply lower_ascii_a in H1. apply lower_ascii_l in H2. apply lower_ascii_l in H3.
    destruct H1 as [E1 | E1], H2 as [E2 | E2], H3 as [E3 | E3];
      rewrite E1, E2, E3; set_solver.
  - rewrite !elem_of_cons, elem_of_nil.
    intros H; repeat (destruct H as [-> | H]; [reflexivity |]); contradiction.
Qed.

Lemma allRequested_spec fields :
  allRequested fields = true <-> exists f, f ∈ fields /\ spellsAll f.
Proof.
  induction fields as [|f rest IH]; simpl.
  - split; [discriminate | intros (f & Hin & _); inversion Hin].
  - destruct (String.eqb_spec (ToLower f) "all") as [E | NE].
    + split; [intros _ | reflexivity].
      exists f. split; [apply list_elem_of_here | by apply ToLower_all].
    + rewrite IH. split.
      * intros (g & Hin & Hg). exists g. split; [by apply list_elem_of_further | done].
      * intros (g & Hin & Hg). apply elem_of_cons in Hin as [-> | Hin].
        -- apply ToLower_all in Hg. contradiction.
        -- by exists g.
Qed.

Lemma keepProvided_dom fields (m : gmap string Z) :
  dom (keepProvided fields m) = list_to_set (ToLower <$> fields) ∪ dom m.
Proof.
  revert m. induction fields as [|f rest IH]; intros m; simpl.
  - set_solver.
  - rewrite IH, dom_insert_L. set_solver.
Qed.

Lemma keepProvided_zero fields (m : gmap string Z) :
  (forall k v, m !! k = Some v -> v = 0%Z) ->
  forall k v, keepProvided fields m !! k = Some v -> v = 0%Z.
Proof.
  revert m. induction fields as [|f rest IH]; intros m Hm k v; simpl.
  - apply Hm.
  - apply IH. intros k' v'. rewrite lookup_insert.
    case_decide; [congruence | apply Hm].
Qed.

Lemma base_fields_dom (isThingsCreate : bool) :
  dom (if isThingsCreate
       then <["thingid" := 0%Z]> (delete "actionid" initialFields)
       else initialFields : gmap string Z) = defaultFields isThingsCreate.
Proof. destruct isThingsCreate; vm_compute; reflexivity. Qed.

Lemma base_fields_zero (isThingsCreate : bool) k v :
  (if isThingsCreate
   then <["thingid" := 0%Z]> (delete "actionid" initialFields)
   else initialFields : gmap string Z) !! k = Some v -> v = 0%Z.
Proof.
  unfold initialFields. destruct isThingsCreate;
    repeat (first [rewrite lookup_insert | rewrite lookup_delete];
            case_decide; [congruence |]);
    rewrite ?lookup_empty; congruence.
Qed.

(** C7.  determineResponseFields keeps the fixed default field set (with
    "actionid" replaced by "thingid" for a things batch) when the caller
    gives no field list or when one of the given fields spells "all" in any
    letter case; otherwise it keeps exactly the set of the given field
    names, lower-cased.  The result is a map used as a set: every value
    is 0. *)
Theorem determineResponseFields_spec (fields : list string) (isThingsCreate : bool) :
  (fields = [] \/ (exists f, f ∈ fields /\ spellsAll f) ->
     dom (determineResponseFields fields isThingsCreate) = defaultFields isThingsCreate)
  /\ (fields <> [] -> (forall f, f ∈ fields -> ~ spellsAll f) ->
     dom (determineResponseFields fields isThingsCreate)
       = list_to_set (ToLower <$> fields))
  /\ (forall k v, determineResponseFields fields isThingsCreate !! k = Some v -> v = 0%Z).
Proof.
  unfold determineResponseFields. split; [|split].
  - intros [-> | Hall]; [apply base_fields_dom |].
    apply allRequested_spec in Hall. rewrite Hall.
    destruct (0 <? length fields)%nat; apply base_fields_dom.
  - intros Hne Hnone.
    destruct fields as [|f rest]; [done |].
    change (0 <? length (f :: rest))%nat with true. cbv iota.
    destruct (allRequested (f :: rest)) eqn:E.
    + apply allRequested_spec in E as (g & Hin & Hg). by destruct (Hnone g).
    + rewrite keepProvided_dom. set_solver.
  - intros k v.
    destruct (0 <? length fields)%nat; [destruct (allRequested fields) |];
      try apply base_fields_zero.
    apply keepProvided_zero. intros k' v'. rewrite lookup_empty. discriminate.
Qed.

Lemma determineResponseFields_spec_witness :
  dom (determineResponseFields ["key"; "aLL"] true) = defaultFields true
  /\ dom (determineResponseFields ["Key"; "SCHEMA"; "key"] false)
       = {[ "key"; "schema" ]}.
Proof.
  split.
  - apply (proj1 (determineResponseFields_spec ["key"; "aLL"] true)).
    right. exists "aLL". split; [set_solver | unfold spellsAll; set_solver].
  - rewrite (proj1 (proj2 (determineResponseFields_spec ["Key"; "SCHEMA"; "key"] false))).
    + vm_compute. reflexivity.
    + discriminate.
    + intros f Hf Hs. apply ToLower_all in Hs.
      rewrite !elem_of_cons in Hf.
      destruct Hf as [E | [E | [E | E]]];
        [rewrite E in Hs; discriminate Hs ..| inversion E].
Defined.

End FieldsProps.

Module PeersProps.
Import Peers Examples.

Example update_accepted :
  P2PWeaviateP2pGenesisUpdateHandler ([] : list Peer) [] [alice]
  = (WeaviateP2pGenesisUpdateOK, ([toPeer alice], [CallUpdatePeers [toPeer alice]])).
Proof. reflexivity. Qed.

Example update_rejected :
  fst (P2PWeaviateP2pGenesisUpdateHandler ([] : list Peer) [] [alice; genesis])
  = WeaviateP2pGenesisUpdateInternalServerError.
Proof. reflexivity. Qed.

Lemma convertPeers_app genesisPeers newPeers :
  convertPeers genesisPeers newPeers = newPeers ++ (toPeer <$> genesisPeers).
Proof.
  revert newPeers. induction genesisPeers as [|g rest IH]; intros newPeers; simpl.
  - by rewrite app_nil_r.
  - rewrite IH. by rewrite <- app_assoc.
Qed.

(** C8.  The peer-update handler turns every received entry into a peer
    with the same id, name, uri and schema hash, hands the whole list to
    one UpdatePeers call (the only call it makes on the network), and
    answers with the success response exactly when that call returns no
    error, with the internal-server-error response otherwise. *)
Theorem genesis_update_handler_spec {N} `{Network N}
    (network : N) (calls : list NetCall) (params_Peers : list PeerUpdate) :
  let newPeers := toPeer <$> params_Peers in
  let r := P2PWeaviateP2pGenesisUpdateHandler network calls params_Peers in
  length newPeers = length params_Peers
  /\ (forall i g, params_Peers !! i = Some g ->
        exists p, newPeers !! i = Some p /\ ID p = pu_ID g /\ Name p = pu_Name g
                  /\ URI p = pu_URI g /\ SchemaHash p = pu_SchemaHash g)
  /\ snd (snd r) = calls ++ [CallUpdatePeers newPeers]
  /\ fst (snd r) = fst (UpdatePeers network newPeers)
  /\ (fst r = WeaviateP2pGenesisUpdateOK <-> snd (UpdatePeers network newPeers) = None)
  /\ (fst r = WeaviateP2pGenesisUpdateInternalServerError
      <-> snd (UpdatePeers network newPeers) <> None).
Proof.
  intros newPeers r. subst r newPeers.
  unfold P2PWeaviateP2pGenesisUpdateHandler.
  rewrite convertPeers_app. simpl.
  split; [apply length_fmap |].
  split.
  { intros i g Hg. exists (toPeer g). rewrite list_lookup_fmap, Hg. by simpl. }
  destruct (UpdatePeers network (toPeer <$> params_Peers)) as [network' [e|]]; simpl.
  - repeat split; try done.
  - repeat split; try done.
Qed.

End PeersProps.

Module GraphQLProps.
Import Peers GraphQL Examples.

Example batched_panics :
  handleUnbatchedGraphQLRequest (None : option unit) q1 0
  = Panicked (PanicMessage "graphql is nil!").
Proof. reflexivity. Qed.

Example single_answers :
  GraphqlWeaviateGraphqlPostHandler (None : option unit) q1 (KeyTokenPrincipal "k")
  = Returned (WeaviateGraphqlPostUnprocessableEntity [noProviderMessage]).
Proof. reflexivity. Qed.

Example batched_resolves :
  handleUnbatchedGraphQLRequest (Some tt) q1 3
  = Returned {| RequestIndex := 3;
                Response := {| Data := Some "{ Local { Get } }"; Errors := [] |} |}.
Proof. reflexivity. Qed.

Lemma eqb_nonempty (s : string) : s <> "" -> String.eqb s "" = false.
Proof. intros Hs. by apply String.eqb_neq. Qed.

(** C10.  With no GraphQL provider (the package variable is nil), a
    sub-request of a GraphQL batch that has a non-empty query makes its
    handler panic: with "graphql is nil!" when the variables are absent or
    a JSON object, and in the type assertion before that otherwise.  The
    non-batched handler answers the same request (variables absent or an
    object, principal from the authentication layer) with the
    unprocessable-entity response, and never raises the nil-provider panic
    on any input; so there is an input on which only the batched path
    panics. *)
Theorem nil_provider_batched_panics {G} `{Provider G} :
  (forall req idx, Query req <> "" ->
     exists p, handleUnbatchedGraphQLRequest (None : option G) req idx = Panicked p)
  /\ (forall req idx, Query req <> "" -> (forall v, QVariables req <> VarsOther v) ->
     handleUnbatchedGraphQLRequest (None : option G) req idx
       = Panicked (PanicMessage "graphql is nil!"))
  /\ (forall req k, Query req <> "" -> (forall v, QVariables req <> VarsOther v) ->
     GraphqlWeaviateGraphqlPostHandler (None : option G) req (KeyTokenPrincipal k)
       = Returned (WeaviateGraphqlPostUnprocessableEntity [noProviderMessage]))
  /\ (forall (g : option G) req principal,
     GraphqlWeaviateGraphqlPostHandler g req principal
       <> Panicked (PanicMessage "graphql is nil!"))
  /\ (exists req k idx,
     handleUnbatchedGraphQLRequest (None : option G) req idx
       = Panicked (PanicMessage "graphql is nil!")
     /\ GraphqlWeaviateGraphqlPostHandler (None : option G) req (KeyTokenPrincipal k)
       = Returned (WeaviateGraphqlPostUnprocessableEntity [noProviderMessage])).
Proof.
  repeat split.
  - intros req idx Hq. unfold handleUnbatchedGraphQLRequest.
    rewrite (eqb_nonempty _ Hq).
    destruct (QVariables req); simpl; eauto.
  - intros req idx Hq Hv. unfold handleUnbatchedGraphQLRequest.
    rewrite (eqb_nonempty _ Hq).
    destruct (QVariables req) as [| m | v] eqn:E; try reflexivity.
    by destruct (Hv v).
  - intros req k Hq Hv. unfold GraphqlWeaviateGraphqlPostHandler.
    rewrite (eqb_nonempty _ Hq).
    destruct (QVariables req) as [| m | v] eqn:E; try reflexivity.
    by destruct (Hv v).
  - intros g req principal. unfold GraphqlWeaviateGraphqlPostHandler.
    destruct (String.eqb (Query req) ""); [discriminate |].
    destruct (QVariables req); simpl; try discriminate;
      destruct principal; simpl; try discriminate;
      destruct g; try discriminate;
      destruct (json_Marshal _); try discriminate;
      destruct (json_Unmarshal _); discriminate.
  - exists q1, "k", 0. split; reflexivity.
Qed.

Lemma nil_provider_batched_panics_witness :
  handleUnbatchedGraphQLRequest (None : option unit) q1 7
    = Panicked (PanicMessage "graphql is nil!")
  /\ GraphqlWeaviateGraphqlPostHandler (None : option unit) q1 (KeyTokenPrincipal "k")
    = Returned (WeaviateGraphqlPostUnprocessableEntity [noProviderMessage]).
Proof.
  pose proof (@nil_provider_batched_panics unit echoProvider) as (_ & Hb & Hs & _).
  split.
  - apply Hb; [discriminate | intros v; discriminate].
  - apply Hs; [discriminate | intros v; discriminate].
Defined.

(** C3, as stated, fails: with a provider published and the peer listing
    failing, the callback does not leave the published provider as it
    was. *)
Lemma callback_clears_published_provider :
  ListPeers unreachable = inr "network unreachable"
  /\ graphQL published = Some tt
  /\ graphQL (schemaUpdateCallback buildOk unreachable tt published)
     <> graphQL published.
Proof. repeat split. vm_compute. discriminate. Qed.

(** C3, amended.  If fetching the peer list fails while the schema-update
    callback runs, the callback clears the published GraphQL provider (the
    package variable becomes nil), logs the failure and returns without
    building a provider: nothing built from a partial peer view is
    published. *)
Theorem callback_peer_failure_clears {N G Schema} `{Network N}
    (Build : Schema -> list Peer -> G + string)
    (network : N) (updatedSchema : Schema) (st : ServerState G Schema) (err : string) :
  ListPeers network = inr err ->
  let st' := schemaUpdateCallback Build network updatedSchema st in
  graphQL st' = None
  /\ builds st' = builds st
  /\ exists msg, messages st' = messages st ++ [Printf "UPDATESCHEMA DB"; ErrorMessage msg].
Proof.
  intros Herr. unfold schemaUpdateCallback. rewrite Herr. simpl.
  repeat split. eexists. by rewrite <- app_assoc.
Qed.

Lemma callback_peer_failure_clears_witness :
  graphQL (schemaUpdateCallback buildOk unreachable tt published) = None.
Proof.
  apply (callback_peer_failure_clears buildOk unreachable tt published
           "network unreachable").
  reflexivity.
Defined.

End GraphQLProps.

Module BatchProps.
Import Fields Batch BatchSpec Examples.

Section Runs.
Context {C : Type} (env : Env C).

Lemma alter_last {A} (f : A -> A) (l : list A) (x : A) :
  alter f (length l) (l ++ [x]) = l ++ [f x].
Proof.
  induction l as [|y l IH]; simpl; [reflexivity |].
  f_equal. exact IH.
Qed.

Lemma fmap_alter_same {A B} (g : A -> B) (f : A -> A) (i : nat) (l : list A) :
  (forall x, g (f x) = g x) -> g <$> alter f i l = g <$> l.
Proof.
  intros Hf. revert i. induction l as [|y l IH]; intros [|i]; simpl;
    try reflexivity.
  - by rewrite Hf.
  - f_equal. apply IH.
Qed.

Ltac unfold_M :=
  unfold handleBatchedCreateRequest, asyncWrite, connutils_GenerateUUID,
    connutils_NowUnix, tick, new, assign, IncSteps, Unlock, go, connectorAdd,
    validateBody, send, wgDone, emit, mbind, M_bind, mret, M_ret.

(** The task of an item, from a world whose channel has room. *)
Lemma item_task_run isThingsCreate batchedRequest requestIndex async principal
    fieldsToKeep (w : World C) :
  length (requestResults w) < capacity w ->
  exists r w',
    handleBatchedCreateRequest env isThingsCreate batchedRequest requestIndex
      async principal fieldsToKeep w = Done (tt, w')
    /\ heap w' = heap w ++ [r]
    /\ builtFrom fieldsToKeep batchedRequest (Obj r)
    /\ requestResults w' = requestResults w ++ [(requestIndex, length (heap w))]
    /\ capacity w' = capacity w
    /\ finished w' = finished w ++ [requestIndex].
Proof.
  intros Hroom. apply Nat.ltb_lt in Hroom.
  unfold_M.
  destruct (keeps fieldsToKeep "creationtimeunix"), isThingsCreate; simpl.
  all: match goal with
       | |- context [ValidateThingBody env ?a ?b ?c] =>
           destruct (ValidateThingBody env a b c) as [e|]
       | |- context [ValidateActionBody env ?a ?b ?c] =>
           destruct (ValidateActionBody env a b c) as [e|]
       end; simpl.
  all: try (destruct async; simpl).
  all: try match goal with
       | |- context [AddThing env ?a ?b ?c] =>
           destruct (AddThing env a b c) as [c' [e|]]
       | |- context [AddAction env ?a ?b ?c] =>
           destruct (AddAction env a b c) as [c' [e|]]
       end; simpl.
  all: rewrite ?alter_last; simpl; rewrite Hroom; simpl.
  all: eexists _, _; split; [reflexivity |]; simpl.
  all: repeat split; reflexivity.
Qed.

(** With the channel full the task blocks on its send. *)
Lemma item_task_blocks isThingsCreate batchedRequest requestIndex async principal
    fieldsToKeep (w : World C) :
  capacity w <= length (requestResults w) ->
  handleBatchedCreateRequest env isThingsCreate batchedRequest requestIndex
    async principal fieldsToKeep w = Stuck (SendBlocks requestIndex).
Proof.
  intros Hfull. apply Nat.ltb_ge in Hfull.
  unfold_M.
  destruct (keeps fieldsToKeep "creationtimeunix"), isThingsCreate; simpl.
  all: match goal with
       | |- context [ValidateThingBody env ?a ?b ?c] =>
           destruct (ValidateThingBody env a b c) as [e|]
       | |- context [ValidateActionBody env ?a ?b ?c] =>
           destruct (ValidateActionBody env a b c) as [e|]
       end; simpl.
  all: try (destruct async; simpl).
  all: try match goal with
       | |- context [AddThing env ?a ?b ?c] =>
           destruct (AddThing env a b c) as [c' [e|]]
       | |- context [AddAction env ?a ?b ?c] =>
           destruct (AddAction env a b c) as [c' [e|]]
       end; simpl.
  all: rewrite ?alter_last; simpl; rewrite Hfull; reflexivity.
Qed.

(** An asynchronous write touches neither the channel nor the wait group,
    and changes only the result part of a response object. *)
Lemma async_write_run isThingsCreate t (w : World C) :
  exists w',
    asyncWrite env isThingsCreate t w = Done (tt, w')
    /\ Obj <$> heap w' = Obj <$> heap w
    /\ requestResults w' = requestResults w
    /\ capacity w' = capacity w
    /\ finished w' = finished w.
Proof.
  unfold_M. destruct isThingsCreate; simpl.
  - destruct (AddThing env _ _ _) as [c' [e|]]; simpl;
      eexists; (split; [reflexivity |]); simpl; repeat split;
      rewrite ?fmap_alter_same; done.
  - destruct (AddAction env _ _ _) as [c' [e|]]; simpl;
      eexists; (split; [reflexivity |]); simpl; repeat split;
      rewrite ?fmap_alter_same; done.
Qed.

Lemma lookup_same_objects (h h' : list GetResponse) loc r :
  Obj <$> h' = Obj <$> h -> h !! loc = Some r ->
  exists r', h' !! loc = Some r' /\ Obj r' = Obj r.
Proof.
  intros Heq Hr.
  assert (Hl : (Obj <$> h') !! loc = Some (Obj r))
    by (rewrite Heq, list_lookup_fmap, Hr; reflexivity).
  rewrite list_lookup_fmap in Hl.
  destruct (h' !! loc) as [r'|]; simpl in Hl; [|discriminate].
  exists r'. split; [reflexivity | congruence].
Qed.

(** Indices below [n] without repetition are at most [n] many. *)
Lemma bounded_nodup_length (l : list nat) (n : nat) :
  NoDup l -> (forall i, i ∈ l -> i < n) -> length l <= n.
Proof.
  intros Hnd Hb.
  apply NoDup_ListNoDup in Hnd.
  pose proof (NoDup_incl_length (l := l) (l' := seq 0 n) Hnd) as Hle.
  rewrite length_seq in Hle. apply Hle.
  intros i Hi. apply in_seq. apply list_elem_of_In in Hi.
  specialize (Hb i Hi). lia.
Qed.

Section Schedule.
Variables (isThingsCreate : bool) (params_Body : Body)
          (principal : KeyTokenGetResponse) (fieldsToKeep : gmap string Z).

Local Abbreviation Inv := (BatchSpec.Inv params_Body fieldsToKeep).
Local Abbreviation Delivered := (BatchSpec.Delivered params_Body fieldsToKeep).
Local Abbreviation items := (Items params_Body).

Lemma inv_room (w : World C) i :
  Inv w -> i < length items -> i ∉ finished w ->
  length (requestResults w) < capacity w.
Proof.
  intros [Hc Hnd Hb Hch _] Hi Hnot.
  assert (Hlen : length (i :: finished w) <= length items).
  { apply bounded_nodup_length.
    - by apply NoDup_cons.
    - intros j Hj. apply elem_of_cons in Hj as [-> | Hj]; [done | by apply Hb]. }
  simpl in Hlen. rewrite Hc, <- (length_fmap fst), Hch. lia.
Qed.

Lemma runStep_inv (s : Step) (w : World C) :
  Inv w ->
  exists w',
    runStep env isThingsCreate params_Body principal fieldsToKeep s w = Done (tt, w')
    /\ Inv w'
    /\ (forall i, i ∈ finished w -> i ∈ finished w')
    /\ (forall i, s = RunItem i -> i < length items -> i ∈ finished w').
Proof.
  intros HI. destruct s as [i | i]; unfold runStep.
  - destruct (items !! i) as [item|] eqn:Hitem.
    + case_bool_decide as Hfin.
      * exists w. split; [reflexivity | split; [exact HI | split; [auto |]]].
        intros j [= ->] _. done.
      * assert (Hi : i < length items) by (by eapply lookup_lt_Some).
        destruct (item_task_run isThingsCreate item i (Async params_Body)
                    principal fieldsToKeep w (inv_room w i HI Hi Hfin))
          as (r & w' & Hrun & Hheap & Hbuilt & Hch & Hcap & Hfinished).
        exists w'. split; [exact Hrun |].
        destruct HI as [Hc Hnd Hb Hchan Hobj].
        split; [constructor |].
        -- by rewrite Hcap.
        -- rewrite Hfinished. apply NoDup_app. repeat split; [done | | apply NoDup_singleton].
           intros j Hj Hj'. apply list_elem_of_singleton in Hj'. by subst.
        -- intros j. rewrite Hfinished, elem_of_app, list_elem_of_singleton.
           intros [Hj | ->]; [by apply Hb | done].
        -- rewrite Hch, Hfinished, fmap_app, Hchan. reflexivity.
        -- intros j loc. rewrite Hch, elem_of_app, list_elem_of_singleton.
           intros [Hin | [= -> ->]].
           ++ destruct (Hobj j loc Hin) as (it & r0 & Hit & Hr0 & Hb0).
              exists it, r0. rewrite Hheap, lookup_app_l by (by eapply lookup_lt_Some).
              done.
           ++ exists item, r. rewrite Hheap, list_lookup_middle by done. done.
        -- split.
           ++ intros j Hj. rewrite Hfinished. apply elem_of_app. by left.
           ++ intros j [= ->] _. rewrite Hfinished. apply elem_of_app. right.
              by apply list_elem_of_singleton.
    + exists w. split; [reflexivity | split; [exact HI | split; [auto |]]].
      intros j [= ->] Hj. apply lookup_ge_None in Hitem. lia.
  - destruct (takeSpawned i (spawned w)) as [[t rest]|].
    + destruct (async_write_run isThingsCreate t (set_spawned rest w))
        as (w' & Hrun & Hheap & Hch & Hcap & Hfinished).
      simpl in Hheap, Hch, Hcap, Hfinished.
      exists w'. split; [exact Hrun |].
      destruct HI as [Hc Hnd Hb Hchan Hobj].
      split; [constructor |].
      * by rewrite Hcap.
      * by rewrite Hfinished.
      * intros j. rewrite Hfinished. apply Hb.
      * by rewrite Hch, Hfinished.
      * intros j loc. rewrite Hch. intros Hin.
        destruct (Hobj j loc Hin) as (it & r0 & Hit & Hr0 & Hb0).
        destruct (lookup_same_objects _ _ loc r0 Hheap Hr0) as (r' & Hr' & Hsame).
        exists it, r'. rewrite Hsame. done.
      * split; [by rewrite Hfinished | discriminate].
    + exists w. split; [reflexivity | split; [exact HI | split; [auto | discriminate]]].
Qed.

Lemma runSchedule_inv (sched : list Step) (w : World C) :
  Inv w ->
  exists w',
    runSchedule env isThingsCreate params_Body principal fieldsToKeep sched w
      = Done (tt, w')
    /\ Inv w'
    /\ (forall i, i ∈ finished w -> i ∈ finished w')
    /\ (forall i, RunItem i ∈ sched -> i < length items -> i ∈ finished w').
Proof.
  revert w. induction sched as [|s rest IH]; intros w HI; simpl.
  - exists w. split; [reflexivity | split; [exact HI | split; [auto |]]].
    intros i Hi. inversion Hi.
  - destruct (runStep_inv s w HI) as (w1 & Hrun1 & HI1 & Hmono1 & Hs).
    destruct (IH w1 HI1) as (w2 & Hrun2 & HI2 & Hmono2 & Hrest).
    exists w2. unfold mbind, M_bind. rewrite Hrun1. split; [exact Hrun2 |].
    split; [exact HI2 |]. split; [auto |].
    intros i Hi Hlt. apply elem_of_cons in Hi as [<- | Hi]; [| auto].
    apply Hmono2. by apply Hs.
Qed.

(** The reassembly loop stores every result at its index and nothing
    elsewhere. *)
Lemma collectResults_spec (chan : list (nat * nat)) (arr : list (option nat)) :
  NoDup chan.*1 ->
  (forall i loc, (i, loc) ∈ chan -> i < length arr) ->
  exists arr',
    collectResults chan arr = Done arr'
    /\ length arr' = length arr
    /\ (forall i loc, (i, loc) ∈ chan -> arr' !! i = Some (Some loc))
    /\ (forall i, i ∉ chan.*1 -> arr' !! i = arr !! i).
Proof.
  revert arr. induction chan as [|[i loc] rest IH]; intros arr Hnd Hb; simpl.
  - exists arr. split; [reflexivity | split; [reflexivity | split; [| done]]].
    intros i loc Hin. inversion Hin.
  - simpl in Hnd. apply NoDup_cons in Hnd as [Hi Hnd].
    assert (Hlt : i < length arr) by (apply (Hb i loc); left).
    apply Nat.ltb_lt in Hlt as Hlt'. rewrite Hlt'.
    destruct (IH (<[i := Some loc]> arr) Hnd) as (arr' & Hrun & Hlen & Hin & Hout).
    { intros j l Hj. rewrite length_insert. apply (Hb j l). by right. }
    exists arr'. split; [exact Hrun |]. split; [by rewrite Hlen, length_insert |].
    split.
    + intros j l Hj. apply elem_of_cons in Hj as [[= -> ->] | Hj]; [| by apply Hin].
      rewrite (Hout i Hi). by apply list_lookup_insert_eq.
    + intros j Hj. simpl in Hj. apply not_elem_of_cons in Hj as [Hne Hj].
      rewrite (Hout j Hj). by apply list_lookup_insert_ne.
Qed.

(** Distinct indices below [n], [n] of them, are all of them. *)
Lemma bounded_nodup_full (l : list nat) (n : nat) :
  NoDup l -> (forall i, i ∈ l -> i < n) -> length l = n -> l ≡ₚ seq 0 n.
Proof.
  intros Hnd Hb Hlen.
  apply NoDup_Permutation; [exact Hnd | apply NoDup_seq |].
  intros i. split.
  - intros Hi. apply elem_of_seq. specialize (Hb i Hi). lia.
  - intros Hi. apply list_elem_of_In.
    apply (NoDup_length_incl (l := l) (l' := seq 0 n)).
    + by apply NoDup_ListNoDup.
    + rewrite length_seq. lia.
    + intros j Hj. apply in_seq. apply list_elem_of_In in Hj.
      specialize (Hb j Hj). lia.
    + by apply list_elem_of_In.
Qed.

Lemma collect_delivered (w : World C) :
  Inv w -> length (finished w) = length items ->
  exists payload,
    collectResults (requestResults w) (replicate (length items) None) = Done payload
    /\ Delivered payload w.
Proof.
  intros [Hc Hnd Hb Hchan Hobj] Hlen.
  pose proof (bounded_nodup_full _ _ Hnd Hb Hlen) as Hperm.
  destruct (collectResults_spec (requestResults w) (replicate (length items) None))
    as (payload & Hrun & Hplen & Hin & _).
  { by rewrite Hchan. }
  { intros i loc Hi. rewrite length_replicate. apply Hb. rewrite <- Hchan.
    apply list_elem_of_fmap. by exists (i, loc). }
  exists payload. split; [exact Hrun |].
  rewrite length_replicate in Hplen.
  split; [exact Hplen |]. split; [| split].
  - intros i item Hitem.
    assert (Hi : i ∈ (requestResults w).*1).
    { rewrite Hchan, Hperm. apply elem_of_seq.
      apply lookup_lt_Some in Hitem. lia. }
    apply list_elem_of_fmap in Hi as ([j loc] & Hj & Hmem). simpl in Hj. subst j.
    destruct (Hobj i loc Hmem) as (item' & r & Hitem' & Hr & Hbuilt).
    assert (item' = item) by congruence. subst item'.
    exists loc, r. repeat split; try done; try apply Hbuilt. by apply Hin.
  - by rewrite Hchan.
  - split; [by rewrite <- (length_fmap fst), Hchan | exact Hc].
Qed.

(** When every index below the batch length has finished, the wait group
    is at zero. *)
Lemma all_finished_length (w : World C) :
  Inv w -> (forall i, i < length items -> i ∈ finished w) ->
  length (finished w) = length items.
Proof.
  intros [Hc Hnd Hb _ _] Hall.
  apply Nat.le_antisymm; [by apply bounded_nodup_length |].
  pose proof (NoDup_incl_length (l := seq 0 (length items)) (l' := finished w)) as Hle.
  rewrite length_seq in Hle. apply Hle.
  - apply NoDup_ListNoDup, NoDup_seq.
  - intros i Hi. apply in_seq in Hi. apply list_elem_of_In. apply Hall. lia.
Qed.

End Schedule.

(** The four ways the handler ends. *)
Lemma handler_cases isThingsCreate principal params_Body sched (w0 : World C) :
  let fieldsToKeep :=
    determineResponseFields (BodyFields params_Body) isThingsCreate in
  let amount := length (Items params_Body) in
  let allowed := ActionsAllowed env principal (connector w0) in
  match BatchingCreateHandler env isThingsCreate principal params_Body sched w0 with
  | Done (Forbidden, w') => allowed = false /\ Untouched w0 w'
  | Done (UnprocessableEntity e, w') =>
      allowed = true /\ amount = 0 /\ e = [] /\ Untouched w0 w'
  | Done (OK payload, w') =>
      allowed = true /\ amount <> 0 /\ Delivered params_Body fieldsToKeep payload w'
  | Stuck why =>
      allowed = true /\ amount <> 0 /\ why = WaitBlocks
      /\ ~ (forall i, i < amount -> RunItem i ∈ sched)
  end.
Proof.
  intros fieldsToKeep amount allowed.
  unfold BatchingCreateHandler, Unlock, emit, mbind, M_bind, mret, M_ret. simpl.
  fold allowed. destruct allowed eqn:Hallowed; simpl.
  2: { split; [reflexivity |]. repeat split. }
  fold amount. destruct (Nat.eqb_spec amount 0) as [Hz | Hnz].
  { simpl. split; [reflexivity |]. split; [exact Hz |]. split; [reflexivity |]. repeat split. }
  fold fieldsToKeep.
  set (w1 := set_finished [] (set_channel [] amount (set_lock delayed_unlock_New w0))).
  assert (HI1 : Inv params_Body fieldsToKeep w1).
  { constructor; simpl; try done.
    - apply NoDup_nil_2.
    - intros i Hi. inversion Hi.
    - intros i loc Hi. inversion Hi. }
  destruct (runSchedule_inv isThingsCreate params_Body principal fieldsToKeep sched w1 HI1)
    as (w2 & Hrun & HI2 & _ & Hdone).
  rewrite Hrun. unfold wgWait.
  destruct (Nat.eqb_spec (length (finished w2)) amount) as [Hlen | Hlen].
  - destruct (collect_delivered params_Body fieldsToKeep w2 HI2 Hlen)
      as (payload & Hcollect & Hdel).
    fold amount in Hcollect. rewrite Hcollect. simpl.
    split; [reflexivity |]. split; [exact Hnz |]. exact Hdel.
  - split; [reflexivity |]. split; [exact Hnz |]. split; [reflexivity |].
    intros Hall. apply Hlen.
    apply (all_finished_length params_Body fieldsToKeep w2 HI2).
    intros i Hi. apply Hdone; [by apply Hall | exact Hi].
Qed.

(** C1.  Whatever the order in which the item tasks (and the asynchronous
    writes) run, the response sequence the batch-create handlers return has
    at position i the response object built for the i-th input item, for
    every i: it is the pointer that came through the channel with index i.
    The handlers do return a response sequence for every non-empty batch
    once all item tasks have run, when the principal may write. *)
Theorem batch_response_in_input_order isThingsCreate principal params_Body sched
    (w0 : World C) :
  let fieldsToKeep :=
    determineResponseFields (BodyFields params_Body) isThingsCreate in
  let run := BatchingCreateHandler env isThingsCreate principal params_Body sched w0 in
  (ActionsAllowed env principal (connector w0) = true ->
   Items params_Body <> [] ->
   (forall i, i < length (Items params_Body) -> RunItem i ∈ sched) ->
   exists payload w', run = Done (OK payload, w'))
  /\ (forall payload w', run = Done (OK payload, w') ->
      1 <= length (Items params_Body)
      /\ length payload = length (Items params_Body)
      /\ forall i item, Items params_Body !! i = Some item ->
           exists loc r, payload !! i = Some (Some loc)
                         /\ (i, loc) ∈ requestResults w'
                         /\ heap w' !! loc = Some r
                         /\ builtFrom fieldsToKeep item (Obj r)).
Proof.
  intros fieldsToKeep run.
  pose proof (handler_cases isThingsCreate principal params_Body sched w0) as Hc.
  simpl in Hc. fold run fieldsToKeep in Hc.
  split.
  - intros Hallowed Hne Hall.
    destruct run as [[[| e | payload] w'] | why].
    + destruct Hc as [Hc _]. congruence.
    + destruct Hc as (_ & Hz & _). destruct (Items params_Body); [done | discriminate].
    + by exists payload, w'.
    + destruct Hc as (_ & _ & _ & Hnot). contradiction.
  - intros payload w' Hrun. rewrite Hrun in Hc.
    destruct Hc as (_ & Hnz & Hlen & Hobj & _).
    split; [lia |]. split; [exact Hlen | exact Hobj].
Qed.

(** C4, amended.  For every non-empty batch request of a principal that is
    allowed to write, the batch-create handlers return exactly one response
    entry per input item, none of them nil, whatever the items' validation
    and connector writes do; every item task delivers exactly one result
    into the result channel, whose capacity is the batch length, so no
    task blocks on its send. *)
Theorem authorized_batch_one_entry_per_item isThingsCreate principal params_Body
    sched (w0 : World C) :
  ActionsAllowed env principal (connector w0) = true ->
  Items params_Body <> [] ->
  (forall i, i < length (Items params_Body) -> RunItem i ∈ sched) ->
  exists payload w',
    BatchingCreateHandler env isThingsCreate principal params_Body sched w0
      = Done (OK payload, w')
    /\ length payload = length (Items params_Body)
    /\ (forall i, i < length (Items params_Body) ->
          exists loc, payload !! i = Some (Some loc))
    /\ capacity w' = length (Items params_Body)
    /\ length (requestResults w') = length (Items params_Body)
    /\ (requestResults w').*1 ≡ₚ seq 0 (length (Items params_Body)).
Proof.
  intros Hallowed Hne Hall.
  pose proof (handler_cases isThingsCreate principal params_Body sched w0) as Hc.
  simpl in Hc.
  destruct (BatchingCreateHandler env isThingsCreate principal params_Body sched w0)
    as [[[| e | payload] w'] | why].
  - destruct Hc as [Hc _]. congruence.
  - destruct Hc as (_ & Hz & _). destruct (Items params_Body); [done | discriminate].
  - destruct Hc as (_ & _ & Hlen & Hobj & Hperm & Hchan & Hcap).
    exists payload, w'. split; [reflexivity |]. split; [exact Hlen |].
    split; [| done].
    intros i Hi. destruct (lookup_lt_is_Some_2 _ _ Hi) as [item Hitem].
    destruct (Hobj i item Hitem) as (loc & r & Hp & _). by exists loc.
  - destruct Hc as (_ & _ & _ & Hnot). contradiction.
Qed.

(** C5, amended.  A batch request with zero items of a principal that is
    allowed to write yields the empty-batch error as an unprocessable-entity
    response with an empty error payload; a principal that is not allowed
    to write gets the forbidden response instead.  Either way no item task
    runs, nothing is sent, no asynchronous write is started and the
    connector is not written to. *)
Theorem empty_batch_rejected isThingsCreate principal params_Body sched
    (w0 : World C) :
  Items params_Body = [] ->
  exists w',
    BatchingCreateHandler env isThingsCreate principal params_Body sched w0
      = Done (if ActionsAllowed env principal (connector w0)
              then UnprocessableEntity [] else Forbidden, w')
    /\ Untouched w0 w'.
Proof.
  intros Hempty.
  pose proof (handler_cases isThingsCreate principal params_Body sched w0) as Hc.
  simpl in Hc. rewrite Hempty in Hc. simpl in Hc.
  destruct (BatchingCreateHandler env isThingsCreate principal params_Body sched w0)
    as [[[| e | payload] w'] | why].
  - destruct Hc as [-> Hu]. by exists w'.
  - destruct Hc as (-> & _ & -> & Hu). by exists w'.
  - destruct Hc as (_ & Hnz & _). done.
  - destruct Hc as (_ & Hnz & _). done.
Qed.

(** C2.  For an item that passes validation in a batch submitted in async
    mode, the task increments the pending-step counter of the delayed lock
    (IncSteps) before it starts the asynchronous write, and the response
    object it sends has the status PENDING and no errors; the connector is
    not written by the task itself.  The asynchronous write, whenever it
    runs, makes the connector write and then calls the delayed unlock
    exactly once; if the write fails it first overwrites, in the response
    object already sent, the status with FAILED and the errors with the
    connector error. *)
Theorem async_item_pending_then_unlock isThingsCreate batchedRequest requestIndex
    principal fieldsToKeep (w : World C) :
  validationOf env isThingsCreate batchedRequest (connector w) principal = None ->
  length (requestResults w) < capacity w ->
  exists r t w',
    handleBatchedCreateRequest env isThingsCreate batchedRequest requestIndex
      true principal fieldsToKeep w = Done (tt, w')
    /\ trace w' = trace w ++ [EvIncSteps requestIndex; EvGo requestIndex;
                              EvSend requestIndex (length (heap w))]
    /\ pendingSteps (lock w') = (pendingSteps (lock w) + 1)%Z
    /\ connector w' = connector w
    /\ heap w' = heap w ++ [r]
    /\ ObjResult r = {| Status := Some PENDING; Errors := None |}
    /\ spawned w' = spawned w ++ [t]
    /\ aw_requestIndex t = requestIndex
    /\ aw_responseObject t = length (heap w)
    /\ aw_object t = Obj r
    /\ forall (w2 : World C) r2,
         heap w2 !! length (heap w) = Some r2 ->
         let written := addOf env isThingsCreate (connector w2) (Obj r) (aw_UUID t) in
         exists w3,
           asyncWrite env isThingsCreate t w2 = Done (tt, w3)
           /\ connector w3 = written.1
           /\ trace w3 = trace w2 ++ [EvWrite requestIndex written.2;
                                      EvUnlock (ByAsyncWrite requestIndex)]
           /\ pendingSteps (lock w3) = (pendingSteps (lock w2) - 1)%Z
           /\ heap w3 !! length (heap w)
              = Some (match written.2 with
                      | Some e => failedWith e r2
                      | None => r2
                      end).
Proof.
  intros Hvalid Hroom. apply Nat.ltb_lt in Hroom.
  unfold validationOf in Hvalid. unfold addOf.
  unfold_M.
  destruct (keeps fieldsToKeep "creationtimeunix"), isThingsCreate; simpl;
    rewrite Hvalid; simpl; rewrite ?alter_last; simpl; rewrite Hroom; simpl.
  all: eexists _, _, _; split; [reflexivity |]; simpl.
  all: rewrite <- !app_assoc; simpl.
  all: do 9 (split; [reflexivity |]).
  all: intros w2 r2 Hr2; cbv zeta; unfold asyncWrite; simpl.
  all: match goal with
       | |- context [AddThing env ?a ?b ?c] =>
           destruct (AddThing env a b c) as [c' [e|]]
       | |- context [AddAction env ?a ?b ?c] =>
           destruct (AddAction env a b c) as [c' [e|]]
       end; simpl.
  all: eexists; split; [reflexivity |]; simpl.
  all: rewrite <- ?app_assoc; simpl.
  all: do 3 (split; [reflexivity |]).
  all: rewrite ?list_lookup_alter_eq, ?Hr2; reflexivity.
Qed.

(** A failed validation marks the result FAILED with the validation error
    and leaves the connector alone: the task writes nothing and starts
    nothing. *)
Lemma invalid_item_failed isThingsCreate batchedRequest requestIndex async
    principal fieldsToKeep (w : World C) (e : string) :
  validationOf env isThingsCreate batchedRequest (connector w) principal = Some e ->
  length (requestResults w) < capacity w ->
  exists r w',
    handleBatchedCreateRequest env isThingsCreate batchedRequest requestIndex
      async principal fieldsToKeep w = Done (tt, w')
    /\ heap w' = heap w ++ [r]
    /\ ObjResult r = {| Status := Some FAILED; Errors := Some [e] |}
    /\ connector w' = connector w
    /\ spawned w' = spawned w
    /\ trace w' = trace w ++ [EvSend requestIndex (length (heap w))].
Proof.
  intros Hvalid Hroom. apply Nat.ltb_lt in Hroom.
  unfold validationOf in Hvalid.
  unfold_M.
  destruct (keeps fieldsToKeep "creationtimeunix"), isThingsCreate; simpl;
    rewrite Hvalid; simpl; rewrite ?alter_last; simpl; rewrite Hroom; simpl.
  all: eexists _, _; split; [reflexivity |]; simpl.
  all: repeat split; reflexivity.
Qed.

(** In synchronous mode a valid item whose connector write succeeds is
    sent with its status pointer still nil: the local status variable holds
    SUCCESS, but no path assigns it to the result. *)
Lemma written_item_status_unset isThingsCreate batchedRequest requestIndex
    principal fieldsToKeep (w : World C) :
  validationOf env isThingsCreate batchedRequest (connector w) principal = None ->
  length (requestResults w) < capacity w ->
  exists r w',
    handleBatchedCreateRequest env isThingsCreate batchedRequest requestIndex
      false principal fieldsToKeep w = Done (tt, w')
    /\ heap w' = heap w ++ [r]
    /\ let written :=
         addOf env isThingsCreate (connector w) (Obj r) (GenerateUUID env (ticks w)) in
       connector w' = written.1
       /\ trace w' = trace w ++ [EvWrite requestIndex written.2;
                                 EvSend requestIndex (length (heap w))]
       /\ ObjResult r = match written.2 with
                        | Some e => {| Status := Some FAILED; Errors := Some [e] |}
                        | None => {| Status := None; Errors := None |}
                        end.
Proof.
  intros Hvalid Hroom. apply Nat.ltb_lt in Hroom.
  unfold validationOf in Hvalid. unfold addOf.
  unfold_M.
  destruct (keeps fieldsToKeep "creationtimeunix"), isThingsCreate; simpl;
    rewrite Hvalid; simpl.
  all: match goal with
       | |- context [AddThing env ?a ?b ?c] =>
           destruct (AddThing env a b c) as [c' [e|]] eqn:Hadd
       | |- context [AddAction env ?a ?b ?c] =>
           destruct (AddAction env a b c) as [c' [e|]] eqn:Hadd
       end; simpl.
  all: rewrite ?alter_last; simpl; rewrite Hroom; simpl.
  all: eexists _, _; split; [reflexivity |]; simpl.
  all: split; [reflexivity |]; cbv zeta; simpl; rewrite Hadd; simpl.
  all: rewrite <- ?app_assoc; repeat split; reflexivity.
Qed.

End Runs.

Lemma schedule201_complete :
  forall i, i < length (Items (body3 false)) -> RunItem i ∈ schedule201.
Proof.
  intros i Hi. simpl in Hi. unfold schedule201.
  destruct i as [|[|[|i]]]; [| | | lia].
  - apply list_elem_of_further, list_elem_of_here.
  - apply list_elem_of_further, list_elem_of_further, list_elem_of_here.
  - apply list_elem_of_here.
Defined.

Example run_out_of_order :
  response (WeaviateBatchingActionsCreateHandler listEnv writer (body3 false)
              schedule201 emptyWorld)
  = Some (OK [Some 1; Some 2; Some 0])
  /\ results (WeaviateBatchingActionsCreateHandler listEnv writer (body3 false)
                schedule201 emptyWorld)
     = [Some ("c0", {| Status := None; Errors := None |});
        Some ("c1", {| Status := Some FAILED; Errors := Some ["class not in schema"] |});
        Some ("full", {| Status := Some FAILED;
                         Errors := Some ["connector write failed"] |})].
Proof. split; vm_compute; reflexivity. Qed.

Example run_async_with_late_failure :
  results (WeaviateBatchingThingsCreateHandler listEnv writer (body3 true)
             [RunItem 2; RunItem 0; RunAsync 2; RunItem 1] emptyWorld)
  = [Some ("c0", {| Status := Some PENDING; Errors := None |});
     Some ("c1", {| Status := Some FAILED; Errors := Some ["class not in schema"] |});
     Some ("full", {| Status := Some FAILED;
                      Errors := Some ["connector write failed"] |})].
Proof. vm_compute. reflexivity. Qed.

Example run_incomplete_schedule_waits :
  WeaviateBatchingActionsCreateHandler listEnv writer (body3 false)
    [RunItem 2; RunItem 0] emptyWorld = Stuck WaitBlocks.
Proof. vm_compute. reflexivity. Qed.

Lemma batch_response_in_input_order_witness :
  exists payload w',
    WeaviateBatchingActionsCreateHandler listEnv writer (body3 false)
      schedule201 emptyWorld = Done (OK payload, w')
    /\ length payload = 3.
Proof.
  pose proof (batch_response_in_input_order listEnv false writer (body3 false)
                schedule201 emptyWorld) as H.
  cbv zeta in H. destruct H as [Hreturns Horder].
  destruct Hreturns as (payload & w' & Hrun);
    [reflexivity | discriminate | exact schedule201_complete |].
  exists payload, w'. split; [exact Hrun |].
  exact (proj1 (proj2 (Horder payload w' Hrun))).
Defined.

Lemma authorized_batch_one_entry_per_item_witness :
  exists payload w',
    WeaviateBatchingThingsCreateHandler listEnv writer (body3 false)
      schedule201 emptyWorld = Done (OK payload, w')
    /\ length payload = 3.
Proof.
  destruct (authorized_batch_one_entry_per_item listEnv true writer (body3 false)
              schedule201 emptyWorld) as (payload & w' & Hrun & Hlen & _);
    [reflexivity | discriminate | exact schedule201_complete |].
  exists payload, w'. split; [exact Hrun | exact Hlen].
Defined.

(** C4, as stated, fails: a non-empty batch of a principal that may not
    write is answered with the forbidden response, which has no entries. *)
Lemma unauthorized_batch_has_no_entries :
  Items (body3 false) <> []
  /\ response (WeaviateBatchingActionsCreateHandler listEnv reader (body3 false)
                 [RunItem 0; RunItem 1; RunItem 2] emptyWorld)
     = Some Forbidden
  /\ ~ (exists payload w',
          WeaviateBatchingActionsCreateHandler listEnv reader (body3 false)
            [RunItem 0; RunItem 1; RunItem 2] emptyWorld = Done (OK payload, w')).
Proof.
  split; [discriminate |]. split; [vm_compute; reflexivity |].
  intros (payload & w' & H). vm_compute in H. discriminate H.
Qed.

(** C5, as stated, fails: an empty batch of a principal that may not write
    is answered with the forbidden response, not with the unprocessable
    entity response. *)
Lemma unauthorized_empty_batch_forbidden :
  Items emptyBody = []
  /\ response (WeaviateBatchingActionsCreateHandler listEnv reader emptyBody []
                 emptyWorld)
     = Some Forbidden
  /\ response (WeaviateBatchingActionsCreateHandler listEnv reader emptyBody []
                 emptyWorld)
     <> Some (UnprocessableEntity []).
Proof. repeat split. vm_compute. discriminate. Qed.

Lemma empty_batch_rejected_witness :
  exists w',
    WeaviateBatchingActionsCreateHandler listEnv writer emptyBody [RunItem 0]
      emptyWorld = Done (UnprocessableEntity [], w')
    /\ trace w' = [EvUnlock ByHandler].
Proof.
  destruct (empty_batch_rejected listEnv false writer emptyBody [RunItem 0] emptyWorld)
    as (w' & Hrun & Hu); [reflexivity |].
  exists w'. split; [exact Hrun |]. apply Hu.
Defined.

Lemma async_item_pending_then_unlock_witness :
  exists w',
    handleBatchedActionsCreateRequest listEnv (item "full" "City") 0 true writer ∅
      roomyWorld = Done (tt, w')
    /\ trace w' = [EvIncSteps 0; EvGo 0; EvSend 0 0].
Proof.
  destruct (async_item_pending_then_unlock listEnv false (item "full" "City") 0
              writer ∅ roomyWorld)
    as (r & t & w' & Hrun & Htrace & _); [reflexivity | apply Nat.lt_0_1 |].
  exists w'. split; [exact Hrun | exact Htrace].
Defined.

(** C6.  A batch item that fails validation is marked FAILED with the
    validation error and is not written to the connector, and its siblings
    are processed all the same.  The siblings that succeed synchronously
    are meant to be reported as SUCCESS; in the code their status is left
    unset.  On the two-item synchronous batch whose item 0 fails validation
    and whose item 1 is valid and written, entry 0 is FAILED with the
    validation error, entry 1 has no status, only item 1 reaches the
    connector, and no entry has the status SUCCESS. *)
Theorem partial_failure_success_not_reported :
  let run := WeaviateBatchingActionsCreateHandler listEnv writer oneBadOneGood
               [RunItem 0; RunItem 1] emptyWorld in
  results run
  = [Some ("c0", {| Status := Some FAILED; Errors := Some ["class not in schema"] |});
     Some ("c1", {| Status := None; Errors := None |})]
  /\ (match run with
      | Done (_, w) => (fun e => AtContext e.1) <$> connector w
      | Stuck _ => []
      end) = ["c1"]
  /\ successCount (results run) = 0.
Proof. repeat split; vm_compute; reflexivity. Qed.

End BatchProps.

Module GraphQLBatchProps.
Import GraphQL GraphQLBatch GraphQLBatchSpec Examples.

Example batch_out_of_order :
  GraphqlWeaviateGraphqlBatchHandler (Some tt) [q1; q2; q1] (KeyTokenPrincipal "k")
    [2; 0; 1]
  = Answered (WeaviateGraphqlBatchOK
      [Some {| Data := Some "{ Local { Get } }"; Errors := [] |};
       Some unprocessableResponse;
       Some {| Data := Some "{ Local { Get } }"; Errors := [] |}]).
Proof. vm_compute. reflexivity. Qed.

Example batch_incomplete_waits :
  GraphqlWeaviateGraphqlBatchHandler (Some tt) [q1; q2] (KeyTokenPrincipal "k") [1]
  = Waits.
Proof. vm_compute. reflexivity. Qed.

Lemma fillResponses_spec (results : list UnbatchedRequestResponse)
    (arr : list (option GraphQLResponse)) :
  NoDup (RequestIndex <$> results) ->
  (forall m, m ∈ results -> RequestIndex m < length arr) ->
  exists arr',
    fillResponses results arr = Some arr'
    /\ length arr' = length arr
    /\ (forall m, m ∈ results -> arr' !! RequestIndex m = Some (Some (Response m)))
    /\ (forall i, i ∉ RequestIndex <$> results -> arr' !! i = arr !! i).
Proof.
  revert arr. induction results as [|m rest IH]; intros arr Hnd Hb; simpl.
  - exists arr. split; [reflexivity | split; [reflexivity | split; [| done]]].
    intros m Hm. inversion Hm.
  - simpl in Hnd. apply NoDup_cons in Hnd as [Hm Hnd].
    assert (Hlt : RequestIndex m < length arr) by (apply Hb; left).
    apply Nat.ltb_lt in Hlt as Hlt'. rewrite Hlt'.
    destruct (IH (<[RequestIndex m := Some (Response m)]> arr) Hnd)
      as (arr' & Hrun & Hlen & Hin & Hout).
    { intros m' Hm'. rewrite length_insert. apply Hb. by right. }
    exists arr'. split; [exact Hrun |]. split; [by rewrite Hlen, length_insert |].
    split.
    + intros m' Hm'. apply elem_of_cons in Hm' as [-> | Hm']; [| by apply Hin].
      rewrite (Hout _ Hm). by apply list_lookup_insert_eq.
    + intros i Hi. simpl in Hi. apply not_elem_of_cons in Hi as [Hne Hi].
      rewrite (Hout i Hi). by apply list_lookup_insert_ne.
Qed.

Section Runs.
Context {G : Type} `{Provider G}.
Variables (graphQL : option G) (params_Body : list GraphQLQuery).

Local Abbreviation Inv := (GraphQLBatchSpec.Inv graphQL params_Body).

Lemma returned_index (req : GraphQLQuery) (i : nat) (m : UnbatchedRequestResponse) :
  handleUnbatchedGraphQLRequest graphQL req i = Returned m -> RequestIndex m = i.
Proof.
  unfold handleUnbatchedGraphQLRequest.
  destruct (String.eqb (Query req) ""); [by intros [= <-] |].
  destruct (QVariables req); simpl; try discriminate;
    (destruct graphQL; [| discriminate]);
    (destruct (json_Marshal _); [| by intros [= <-]]);
    (destruct (json_Unmarshal _); by intros [= <-]).
Qed.

Lemma bounded_length (l : list nat) (n : nat) :
  NoDup l -> (forall i, i ∈ l -> i < n) -> length l <= n.
Proof.
  intros Hnd Hb. apply NoDup_ListNoDup in Hnd.
  pose proof (NoDup_incl_length (l := l) (l' := seq 0 n) Hnd) as Hle.
  rewrite length_seq in Hle. apply Hle.
  intros i Hi. apply in_seq. apply list_elem_of_In in Hi.
  specialize (Hb i Hi). lia.
Qed.

Lemma runRequests_cases (order : list nat) (sh : Shared) :
  Inv sh ->
  match runRequests graphQL params_Body (length params_Body) order sh with
  | inl sh' =>
      Inv sh'
      /\ (forall i, i ∈ done sh -> i ∈ done sh')
      /\ (forall i, i ∈ order -> i < length params_Body -> i ∈ done sh')
  | inr (Crashed p) =>
      exists i req, params_Body !! i = Some req
                    /\ handleUnbatchedGraphQLRequest graphQL req i = Panicked p
  | inr _ => False
  end.
Proof.
  revert sh. induction order as [|i rest IH]; intros sh HI; simpl.
  - split; [exact HI | split; [auto |]]. intros i Hi. inversion Hi.
  - destruct (params_Body !! i) as [req|] eqn:Hreq.
    + case_bool_decide as Hdone.
      * specialize (IH sh HI).
        destruct (runRequests graphQL params_Body (length params_Body) rest sh)
          as [sh' | stop]; [| exact IH].
        destruct IH as (HI' & Hmono & Hrest).
        split; [exact HI' | split; [exact Hmono |]].
        intros j Hj Hlt. apply elem_of_cons in Hj as [-> | Hj]; auto.
      * destruct (handleUnbatchedGraphQLRequest graphQL req i) as [m | p] eqn:Hrun.
        2: { by exists i, req. }
        pose proof (returned_index req i m Hrun) as Hidx.
        assert (Hi : i < length params_Body) by (by eapply lookup_lt_Some).
        destruct HI as [Hnd Hb Hch Hmsg].
        assert (Hroom : length (requestResults sh) < length params_Body).
        { assert (length (i :: done sh) <= length params_Body).
          { apply bounded_length; [by apply NoDup_cons |].
            intros j Hj. apply elem_of_cons in Hj as [-> | Hj]; auto. }
          simpl in *. rewrite <- (length_fmap RequestIndex), Hch. lia. }
        apply Nat.ltb_lt in Hroom. rewrite Hroom.
        set (sh1 := {| requestResults := requestResults sh ++ [m];
                       done := done sh ++ [i] |}).
        assert (HI1 : Inv sh1).
        { constructor; simpl.
          - apply NoDup_app. repeat split; [done | | apply NoDup_singleton].
            intros j Hj Hj'. apply list_elem_of_singleton in Hj'. by subst.
          - intros j. rewrite elem_of_app, list_elem_of_singleton.
            intros [Hj | ->]; auto.
          - rewrite fmap_app, Hch. simpl. by rewrite Hidx.
          - intros m'. rewrite elem_of_app, list_elem_of_singleton.
            intros [Hm' | ->]; [by apply Hmsg |].
            exists req. rewrite Hidx. done. }
        specialize (IH sh1 HI1).
        destruct (runRequests graphQL params_Body (length params_Body) rest sh1)
          as [sh' | stop]; [| exact IH].
        destruct IH as (HI' & Hmono & Hrest).
        split; [exact HI' |]. split.
        -- intros j Hj. apply Hmono. simpl. apply elem_of_app. by left.
        -- intros j Hj Hlt. apply elem_of_cons in Hj as [-> | Hj]; auto.
           apply Hmono. simpl. apply elem_of_app. right.
           by apply list_elem_of_singleton.
    + specialize (IH sh HI).
      destruct (runRequests graphQL params_Body (length params_Body) rest sh)
        as [sh' | stop]; [| exact IH].
      destruct IH as (HI' & Hmono & Hrest).
      split; [exact HI' | split; [exact Hmono |]].
      intros j Hj Hlt. apply elem_of_cons in Hj as [-> | Hj]; auto.
      apply lookup_ge_None in Hreq. lia.
Qed.

Lemma full_done_length (sh : Shared) :
  Inv sh -> (forall i, i < length params_Body -> i ∈ done sh) ->
  length (done sh) = length params_Body.
Proof.
  intros [Hnd Hb _ _] Hall.
  apply Nat.le_antisymm; [by apply bounded_length |].
  pose proof (NoDup_incl_length (l := seq 0 (length params_Body)) (l' := done sh)) as Hle.
  rewrite length_seq in Hle. apply Hle.
  - apply NoDup_ListNoDup, NoDup_seq.
  - intros i Hi. apply in_seq in Hi. apply list_elem_of_In. apply Hall. lia.
Qed.

(** When no request handler panics and every goroutine gets to run, the
    handler answers with one entry per request, entry [i] being the
    response of request [i]. *)
Lemma batch_answers (principal : Principal) (order : list nat) (k : string) :
  principal = KeyTokenPrincipal k ->
  params_Body <> [] ->
  (forall i, i < length params_Body -> i ∈ order) ->
  (forall i req, params_Body !! i = Some req ->
     exists m, handleUnbatchedGraphQLRequest graphQL req i = Returned m) ->
  exists payload,
    GraphqlWeaviateGraphqlBatchHandler graphQL params_Body principal order
      = Answered (WeaviateGraphqlBatchOK payload)
    /\ length payload = length params_Body
    /\ forall i req, params_Body !! i = Some req ->
         exists m, handleUnbatchedGraphQLRequest graphQL req i = Returned m
                   /\ payload !! i = Some (Some (Response m)).
Proof.
  intros -> Hne Hall Hret.
  unfold GraphqlWeaviateGraphqlBatchHandler. simpl.
  destruct (Nat.eqb_spec (length params_Body) 0) as [Hz | Hnz].
  { destruct params_Body; [done | discriminate]. }
  set (sh0 := {| requestResults := []; done := [] |}).
  assert (HI0 : Inv sh0).
  { constructor; simpl; try done.
    - apply NoDup_nil_2.
    - intros i Hi. inversion Hi.
    - intros m Hm. inversion Hm. }
  pose proof (runRequests_cases order sh0 HI0) as Hc.
  destruct (runRequests graphQL params_Body (length params_Body) order sh0)
    as [sh | [r | p | |]]; try done.
  2: { destruct Hc as (i & req & Hreq & Hp).
       destruct (Hret i req Hreq) as [m Hm]. congruence. }
  destruct Hc as (HI & _ & Hdone).
  assert (Hlen : length (done sh) = length params_Body).
  { apply full_done_length; [exact HI |]. intros i Hi. apply Hdone; auto. }
  apply Nat.eqb_eq in Hlen as Hlen'. rewrite Hlen'.
  destruct HI as [Hnd Hb Hch Hmsg].
  destruct (fillResponses_spec (requestResults sh)
              (replicate (length params_Body) None))
    as (payload & Hfill & Hplen & Hin & _).
  { by rewrite Hch. }
  { intros m Hm. rewrite length_replicate. apply Hb. rewrite <- Hch.
    apply list_elem_of_fmap. by exists m. }
  rewrite Hfill. exists payload. split; [reflexivity |].
  rewrite length_replicate in Hplen. split; [exact Hplen |].
  intros i req Hreq.
  assert (Hi : i ∈ RequestIndex <$> requestResults sh).
  { rewrite Hch. apply Hdone; [apply Hall |]; by eapply lookup_lt_Some. }
  apply list_elem_of_fmap in Hi as (m & -> & Hm).
  destruct (Hmsg m Hm) as (req' & Hreq' & Hrun).
  assert (req' = req) by congruence. subst req'.
  exists m. split; [exact Hrun | by apply Hin].
Qed.

Lemma present_provider_returns (g : G) (req : GraphQLQuery) (i : nat) :
  (forall v, QVariables req <> VarsOther v) ->
  exists m, handleUnbatchedGraphQLRequest (Some g) req i = Returned m.
Proof.
  intros Hv. unfold handleUnbatchedGraphQLRequest.
  destruct (String.eqb (Query req) ""); [eauto |].
  destruct (QVariables req) as [| vars | v]; simpl; [| | by destruct (Hv v)];
    destruct (json_Marshal _); eauto; destruct (json_Unmarshal _); eauto.
Qed.

End Runs.

Section Batch.
Context {G : Type} `{Provider G}.

(** With a provider present, the GraphQL batch handler answers a non-empty
    batch (variables absent or JSON objects) with one entry per request,
    and entry i is the response of the handler of request i, whatever the
    order in which the request goroutines finish. *)
Theorem graphql_batch_in_request_order (g : G) (params_Body : list GraphQLQuery)
    (k : string) (order : list nat) :
  params_Body <> [] ->
  (forall req, req ∈ params_Body -> forall v, QVariables req <> VarsOther v) ->
  (forall i, i < length params_Body -> i ∈ order) ->
  exists payload,
    GraphqlWeaviateGraphqlBatchHandler (Some g) params_Body (KeyTokenPrincipal k) order
      = Answered (WeaviateGraphqlBatchOK payload)
    /\ length payload = length params_Body
    /\ forall i req, params_Body !! i = Some req ->
         exists m, handleUnbatchedGraphQLRequest (Some g) req i = Returned m
                   /\ RequestIndex m = i
                   /\ payload !! i = Some (Some (Response m)).
Proof.
  intros Hne Hvars Hall.
  destruct (batch_answers (Some g) params_Body (KeyTokenPrincipal k) order k)
    as (payload & Hrun & Hlen & Hpay); try done.
  { intros i req Hreq. apply present_provider_returns.
    apply Hvars. by eapply list_elem_of_lookup_2. }
  exists payload. split; [exact Hrun |]. split; [exact Hlen |].
  intros i req Hreq. destruct (Hpay i req Hreq) as (m & Hm & Hp).
  exists m. split; [exact Hm |]. split; [| exact Hp].
  by eapply returned_index.
Qed.

(** A batch whose requests all have an empty query is answered without the
    provider: every entry is the unprocessable-entity error entry, also
    when no provider is present. *)
Theorem graphql_batch_empty_queries (graphQL : option G)
    (params_Body : list GraphQLQuery) (k : string) (order : list nat) :
  params_Body <> [] ->
  (forall req, req ∈ params_Body -> Query req = "") ->
  (forall i, i < length params_Body -> i ∈ order) ->
  GraphqlWeaviateGraphqlBatchHandler graphQL params_Body (KeyTokenPrincipal k) order
  = Answered (WeaviateGraphqlBatchOK
                (replicate (length params_Body) (Some unprocessableResponse))).
Proof.
  intros Hne Hempty Hall.
  assert (Hret : forall i req, params_Body !! i = Some req ->
            handleUnbatchedGraphQLRequest graphQL req i
            = Returned {| RequestIndex := i; Response := unprocessableResponse |}).
  { intros i req Hreq. unfold handleUnbatchedGraphQLRequest.
    rewrite (Hempty req) by (by eapply list_elem_of_lookup_2). reflexivity. }
  destruct (batch_answers graphQL params_Body (KeyTokenPrincipal k) order k)
    as (payload & Hrun & Hlen & Hpay); try done.
  { intros i req Hreq. eexists. by apply Hret. }
  rewrite Hrun. do 2 f_equal.
  apply list_eq. intros i.
  destruct (params_Body !! i) as [req|] eqn:Hreq.
  - destruct (Hpay i req Hreq) as (m & Hm & Hp).
    rewrite (Hret i req Hreq) in Hm. injection Hm as <-.
    rewrite Hp. symmetry. apply lookup_replicate_2. by eapply lookup_lt_Some.
  - apply lookup_ge_None in Hreq.
    rewrite (proj2 (lookup_ge_None _ _)) by lia.
    symmetry. apply lookup_ge_None. rewrite length_replicate. lia.
Qed.

(** Without a provider, one request with a non-empty query is enough to
    bring the whole batch down: the handler does not answer, a request
    goroutine panics. *)
Theorem graphql_batch_nil_provider_crashes (params_Body : list GraphQLQuery)
    (k : string) (order : list nat) (j : nat) (req : GraphQLQuery) :
  params_Body !! j = Some req ->
  Query req <> "" ->
  (forall i, i < length params_Body -> i ∈ order) ->
  exists p,
    GraphqlWeaviateGraphqlBatchHandler (None : option G) params_Body
      (KeyTokenPrincipal k) order = Crashed p.
Proof.
  intros Hreq Hq Hall.
  unfold GraphqlWeaviateGraphqlBatchHandler. simpl.
  destruct (Nat.eqb_spec (length params_Body) 0) as [Hz | Hnz].
  { apply lookup_lt_Some in Hreq. lia. }
  set (sh0 := {| requestResults := []; done := [] |}).
  assert (HI0 : Inv None params_Body sh0).
  { constructor; simpl; try done.
    - apply NoDup_nil_2.
    - intros i Hi. inversion Hi.
    - intros m Hm. inversion Hm. }
  pose proof (runRequests_cases None params_Body order sh0 HI0) as Hc.
  destruct (runRequests None params_Body (length params_Body) order sh0)
    as [sh | [r | p | |]]; try done; [| by exists p].
  exfalso. destruct Hc as ([Hnd Hb Hch Hmsg] & _ & Hdone).
  assert (Hj : j ∈ RequestIndex <$> requestResults sh).
  { rewrite Hch. apply Hdone; [apply Hall |]; by eapply lookup_lt_Some. }
  apply list_elem_of_fmap in Hj as (m & -> & Hm).
  destruct (Hmsg m Hm) as (req' & Hreq' & Hrun).
  assert (req' = req) by congruence. subst req'.
  revert Hrun. unfold handleUnbatchedGraphQLRequest.
  apply String.eqb_neq in Hq. rewrite Hq.
  destruct (QVariables req); discriminate.
Qed.

End Batch.

Lemma order201_complete :
  forall i, i < length [q1; q2; q1] -> i ∈ [2; 0; 1].
Proof.
  intros i Hi. simpl in Hi.
  destruct i as [|[|[|i]]]; [| | | lia].
  - apply list_elem_of_further, list_elem_of_here.
  - apply list_elem_of_further, list_elem_of_further, list_elem_of_here.
  - apply list_elem_of_here.
Defined.

Lemma graphql_batch_in_request_order_witness :
  exists payload,
    GraphqlWeaviateGraphqlBatchHandler (Some tt) [q1; q2; q1] (KeyTokenPrincipal "k")
      [2; 0; 1] = Answered (WeaviateGraphqlBatchOK payload)
    /\ length payload = 3.
Proof.
  destruct (graphql_batch_in_request_order tt [q1; q2; q1] "k" [2; 0; 1])
    as (payload & Hrun & Hlen & _).
  - discriminate.
  - intros req Hreq v.
    rewrite !elem_of_cons in Hreq.
    destruct Hreq as [-> | [-> | [-> | Hreq]]]; [discriminate .. | inversion Hreq].
  - exact order201_complete.
  - exists payload. split; [exact Hrun | exact Hlen].
Defined.

Lemma graphql_batch_empty_queries_witness :
  GraphqlWeaviateGraphqlBatchHandler (None : option unit) [q2; q2]
    (KeyTokenPrincipal "k") [1; 0]
  = Answered (WeaviateGraphqlBatchOK
                [Some unprocessableResponse; Some unprocessableResponse]).
Proof.
  apply (graphql_batch_empty_queries (None : option unit) [q2; q2] "k" [1; 0]).
  - discriminate.
  - intros req Hreq. rewrite !elem_of_cons in Hreq.
    destruct Hreq as [-> | [-> | Hreq]]; [reflexivity .. | inversion Hreq].
  - intros i Hi. simpl in Hi. destruct i as [|[|i]]; [| | lia].
    + apply list_elem_of_further, list_elem_of_here.
    + apply list_elem_of_here.
Defined.

Lemma graphql_batch_nil_provider_crashes_witness :
  exists p,
    GraphqlWeaviateGraphqlBatchHandler (None : option unit) [q1; q2; q1]
      (KeyTokenPrincipal "k") [2; 0; 1] = Crashed p.
Proof.
  apply (graphql_batch_nil_provider_crashes [q1; q2; q1] "k" [2; 0; 1] 0 q1).
  - reflexivity.
  - discriminate.
  - exact order201_complete.
Defined.

End GraphQLBatchProps.

Module GraphQLMoreProps.
Import Peers GraphQL Examples.

Section Single.
Context {G : Type} `{Provider G}.

(** The non-batched GraphQL handler answers OK only when the query is not
    empty, the variables are absent or an object, the principal is a
    key-token response, a provider is present, and the result of the
    provider passes through JSON; the payload is then the decoded result.
    In every other case it answers unprocessable entity or panics. *)
Theorem post_ok_iff (graphQL : option G) (params_Body : GraphQLQuery)
    (principal : Principal) (resp : GraphQLResponse) :
  GraphqlWeaviateGraphqlPostHandler graphQL params_Body principal
    = Returned (WeaviateGraphqlPostOK resp)
  <-> Query params_Body <> ""
      /\ exists variables k g resultJSON,
           assertVariables (QVariables params_Body) = Returned variables
           /\ principal = KeyTokenPrincipal k
           /\ graphQL = Some g
           /\ json_Marshal (Resolve g (Query params_Body)
                              (OperationName params_Body) variables)
              = inl resultJSON
           /\ json_Unmarshal resultJSON = inl resp.
Proof.
  unfold GraphqlWeaviateGraphqlPostHandler. split.
  - destruct (String.eqb_spec (Query params_Body) "") as [E | NE]; [discriminate |].
    intros Hrun. split; [exact NE |].
    destruct (assertVariables (QVariables params_Body)) as [variables | p];
      simpl in Hrun; [| discriminate].
    destruct principal as [k |]; simpl in Hrun; [| discriminate].
    destruct graphQL as [g |]; [| discriminate].
    destruct (json_Marshal _) as [resultJSON | e] eqn:Hm; [| discriminate].
    destruct (json_Unmarshal resultJSON) as [r | e] eqn:Hu; [| discriminate].
    injection Hrun as ->.
    exists variables, k, g, resultJSON. done.
  - intros (NE & variables & k & g & resultJSON & Hv & -> & -> & Hm & Hu).
    apply String.eqb_neq in NE. rewrite NE, Hv. simpl. by rewrite Hm, Hu.
Qed.

End Single.

Section Callback.
Context {N G Schema : Type} `{Network N}.

(** After the schema-update callback the published provider is exactly the
    one just built from the listed peers: a provider is published if and
    only if listing the peers and building both succeed, so the provider
    of an earlier schema never survives a callback.  The builder is
    invoked at most once, on the updated schema and the listed peers, and
    only when the peers could be listed. *)
Theorem callback_publishes_only_fresh
    (Build : Schema -> list Peer -> G + string)
    (network : N) (updatedSchema : Schema) (st : ServerState G Schema) :
  let st' := schemaUpdateCallback Build network updatedSchema st in
  (forall g, graphQL st' = Some g
             <-> exists peers, ListPeers network = inl peers
                               /\ Build updatedSchema peers = inl g)
  /\ builds st' = builds st ++ match ListPeers network with
                               | inl peers => [(updatedSchema, peers)]
                               | inr _ => []
                               end
  /\ length (messages st') = length (messages st) + 2.
Proof.
  unfold schemaUpdateCallback.
  destruct (ListPeers network) as [peers | e]; simpl.
  - destruct (Build updatedSchema peers) as [g' | e] eqn:Hb; simpl.
    + split; [| split; [reflexivity | rewrite !length_app; simpl; lia]].
      intros g. split.
      * intros [= <-]. by exists peers.
      * intros (peers' & [= <-] & Hg). congruence.
    + split; [| split; [reflexivity | rewrite !length_app; simpl; lia]].
      intros g. split; [discriminate |].
      intros (peers' & [= <-] & Hg). congruence.
  - split; [| split; [by rewrite app_nil_r | rewrite !length_app; simpl; lia]].
    intros g. split; [discriminate |]. intros (peers' & Hp & _). discriminate.
Qed.

(** When the rebuild in the callback fails, because the peers cannot be
    listed or because the build fails, the non-batched handler answers
    every later query (non-empty, variables absent or an object) with the
    unprocessable-entity response that says no provider is present. *)
Theorem failed_rebuild_then_no_provider `{Provider G}
    (Build : Schema -> list Peer -> G + string)
    (network : N) (updatedSchema : Schema) (st : ServerState G Schema)
    (params_Body : GraphQLQuery) (k : string) :
  (forall peers g, ListPeers network = inl peers ->
                   Build updatedSchema peers <> inl g) ->
  Query params_Body <> "" ->
  (forall v, QVariables params_Body <> VarsOther v) ->
  GraphqlWeaviateGraphqlPostHandler
    (graphQL (schemaUpdateCallback Build network updatedSchema st))
    params_Body (KeyTokenPrincipal k)
  = Returned (WeaviateGraphqlPostUnprocessableEntity [noProviderMessage]).
Proof.
  intros Hfail Hq Hv.
  assert (Hnone : graphQL (schemaUpdateCallback Build network updatedSchema st) = None).
  { unfold schemaUpdateCallback.
    destruct (ListPeers network) as [peers | e] eqn:Hl; [| reflexivity].
    destruct (Build updatedSchema peers) as [g | e] eqn:Hb; [| reflexivity].
    by destruct (Hfail peers g). }
  rewrite Hnone. unfold GraphqlWeaviateGraphqlPostHandler.
  apply String.eqb_neq in Hq. rewrite Hq.
  destruct (QVariables params_Body) as [| m | v]; try reflexivity.
  by destruct (Hv v).
Qed.

End Callback.

Lemma failed_rebuild_then_no_provider_witness :
  GraphqlWeaviateGraphqlPostHandler
    (graphQL (schemaUpdateCallback buildOk unreachable tt published))
    q1 (KeyTokenPrincipal "k")
  = Returned (WeaviateGraphqlPostUnprocessableEntity [noProviderMessage]).
Proof.
  apply (failed_rebuild_then_no_provider buildOk unreachable tt published q1 "k").
  - intros peers g Hl. discriminate Hl.
  - discriminate.
  - intros v. discriminate.
Defined.

End GraphQLMoreProps.

Module AuthProps.
Import Auth.

Example auth_accepts : fst (headerAPIKeyHandling exampleEnv "k1/t1")
  = inl {| TokenKey := {| KeyID := "k1"; KeyExpiresUnix := -1 |}; TokenValue := "t1" |}.
Proof. vm_compute. reflexivity. Qed.

Example auth_expired : fst (headerAPIKeyHandling exampleEnv "k2/t2")
  = inr {| Code := 401; ErrorMessage := "key expired" |}.
Proof. vm_compute. reflexivity. Qed.

Example auth_wrong_token :
  headerAPIKeyHandling exampleEnv "k1/t2"
  = (inr {| Code := 401; ErrorMessage := "invalid token" |},
     [EvConnectorLock; EvValidateToken "k1"; EvUnlock]).
Proof. vm_compute. reflexivity. Qed.

Example auth_missing_token :
  headerAPIKeyHandling exampleEnv "k1"
  = (inr {| Code := 401; ErrorMessage := "missing header" |},
     [EvConnectorLock; EvUnlock]).
Proof. vm_compute. reflexivity. Qed.

Lemma accepted_characterisation (env : Env) (keyToken : string)
    (r : KeyTokenGetResponse) :
  let kth := json_Unmarshal env keyToken {| Key := ""; Token := "" |} in
  fst (headerAPIKeyHandling env keyToken) = inl r
  <-> Key kth <> "" /\ Token kth <> ""
      /\ exists hashed validatedKey,
           ValidateToken env (Key kth) = inl (hashed, validatedKey)
           /\ TokenHashCompare env hashed (Token kth) = true
           /\ (KeyExpiresUnix validatedKey = (-1)%Z
               \/ (NowUnix env <= KeyExpiresUnix validatedKey)%Z)
           /\ r = {| TokenKey := validatedKey; TokenValue := Token kth |}.
Proof.
  intros kth. unfold headerAPIKeyHandling. fold kth.
  destruct (String.eqb_spec (Key kth) "") as [Ek | Nk]; simpl.
  { split; [discriminate | intros (Hk & _); done]. }
  destruct (String.eqb_spec (Token kth) "") as [Et | Nt]; simpl.
  { split; [discriminate | intros (_ & Ht & _); done]. }
  destruct (ValidateToken env (Key kth)) as [[hashed vk] | err]; simpl.
  2: { split; [discriminate | intros (_ & _ & h & v & Hv & _); discriminate]. }
  destruct (TokenHashCompare env hashed (Token kth)) eqn:Hcmp; simpl.
  2: { split; [discriminate |].
       intros (_ & _ & h & v & [= <- <-] & Hc & _). congruence. }
  destruct (Z.eqb_spec (KeyExpiresUnix vk) (-1)) as [Eexp | Nexp]; simpl.
  { split.
    - intros [= <-]. repeat split; try done. exists hashed, vk. auto.
    - intros (_ & _ & h & v & [= <- <-] & _ & _ & ->). reflexivity. }
  destruct (Z.ltb_spec (KeyExpiresUnix vk) (NowUnix env)) as [Hlt | Hge]; simpl.
  { split; [discriminate |].
    intros (_ & _ & h & v & [= <- <-] & _ & [Hm | Hle] & _); [done | lia]. }
  split.
  - intros [= <-]. repeat split; try done. exists hashed, vk. auto.
  - intros (_ & _ & h & v & [= <- <-] & _ & _ & ->). reflexivity.
Qed.

(** The key-token handling accepts a header value exactly when it decodes
    to a non-empty key and a non-empty token, the connector knows the key,
    the token matches the stored hash, and the key does not expire (expiry
    -1) or expires no earlier than now; the response then carries the key
    found and the token of the header. *)
Theorem header_accepted_iff (env : Env) (keyToken : string)
    (r : KeyTokenGetResponse) :
  let kth := json_Unmarshal env keyToken {| Key := ""; Token := "" |} in
  fst (headerAPIKeyHandling env keyToken) = inl r
  <-> Key kth <> "" /\ Token kth <> ""
      /\ exists hashed validatedKey,
           ValidateToken env (Key kth) = inl (hashed, validatedKey)
           /\ TokenHashCompare env hashed (Token kth) = true
           /\ (KeyExpiresUnix validatedKey = (-1)%Z
               \/ (NowUnix env <= KeyExpiresUnix validatedKey)%Z)
           /\ r = {| TokenKey := validatedKey; TokenValue := Token kth |}.
Proof. apply accepted_characterisation. Qed.

(** Every rejection of the key-token handling is a 401.  On every path the
    database lock is taken first and released last; the connector is asked
    to validate at most once, for the key of the header, and not at all
    when the key or the token is missing. *)
Theorem header_rejections_and_lock (env : Env) (keyToken : string) :
  let kth := json_Unmarshal env keyToken {| Key := ""; Token := "" |} in
  (forall e, fst (headerAPIKeyHandling env keyToken) = inr e -> Code e = 401%Z)
  /\ snd (headerAPIKeyHandling env keyToken)
     = [EvConnectorLock]
       ++ (if String.eqb (Key kth) "" || String.eqb (Token kth) ""
           then [] else [EvValidateToken (Key kth)])
       ++ [EvUnlock].
Proof.
  intros kth. unfold headerAPIKeyHandling. fold kth.
  destruct (String.eqb (Key kth) "" || String.eqb (Token kth) ""); simpl.
  { split; [by intros e [= <-] | reflexivity]. }
  destruct (ValidateToken env (Key kth)) as [[hashed vk] | err]; simpl.
  2: { split; [by intros e [= <-] | reflexivity]. }
  destruct (negb (TokenHashCompare env hashed (Token kth))); simpl.
  { split; [by intros e [= <-] | reflexivity]. }
  destruct (negb (KeyExpiresUnix vk =? -1)%Z && (KeyExpiresUnix vk <? NowUnix env)%Z);
    simpl; (split; [| reflexivity]).
  - by intros e [= <-].
  - discriminate.
Qed.

End AuthProps.

Module MiddlewareProps.
Import Auth Middleware.

Example preflight_answers_options :
  infoMessages (setupGlobalMiddleware (fun h => h) (fun h => h) (fun h => h)
                  true true noting options emptyExchange) = []
  /\ Header_Get (responseHeader
       (setupGlobalMiddleware (fun h => h) (fun h => h) (fun h => h)
          true true noting options emptyExchange)) "Access-Control-Allow-Origin" = "*".
Proof. split; vm_compute; reflexivity. Qed.

Example lowercase_options_is_served :
  infoMessages (addPreflight noting
                  {| Method := "options"; URL := "/"; Header := ∅ |} emptyExchange)
  = ["api options"].
Proof. vm_compute. reflexivity. Qed.

(** The global middleware answers an OPTIONS request by itself: it sets the
    two Access-Control headers to "*" and nothing else happens; neither the
    logger nor the CORS, developer-UI or API handlers see the request,
    whatever the flags.  Every other request goes, after the optional log
    line, to the handler wrapped by CORS and, with the developer UI
    enabled, by the graphiql and swagger middlewares. *)
Theorem global_middleware_preflight (handleCORS graphiql swagger : Handler -> Handler)
    (EnableDevUI Debug : bool) (handler : Handler) (r : Request) (x : Exchange) :
  let served := setupGlobalMiddleware handleCORS graphiql swagger
                  EnableDevUI Debug handler r x in
  (Method r = "OPTIONS" ->
     served = setResponseHeader "Access-Control-Allow-Methods" "*"
                (setResponseHeader "Access-Control-Allow-Origin" "*" x)
     /\ infoMessages served = infoMessages x
     /\ logLines served = logLines x)
  /\ (Method r <> "OPTIONS" ->
     served = (if EnableDevUI then swagger (graphiql (handleCORS handler))
               else handleCORS handler)
                r (if Debug
                   then log_Printf ("Received request: " +:+ Method r +:+ " " +:+ URL r) x
                   else x)).
Proof.
  unfold setupGlobalMiddleware, addPreflight, addLogging. simpl. split.
  - intros ->. simpl. done.
  - intros Hm. apply String.eqb_neq in Hm. by rewrite Hm.
Qed.

Lemma global_middleware_preflight_witness :
  setupGlobalMiddleware (fun h => h) (fun h => h) (fun h => h)
    true true noting options emptyExchange
  = setResponseHeader "Access-Control-Allow-Methods" "*"
      (setResponseHeader "Access-Control-Allow-Origin" "*" emptyExchange)
  /\ setupGlobalMiddleware (fun h => h) (fun h => h) (fun h => h)
       false false noting getThings emptyExchange
     = noting getThings emptyExchange.
Proof.
  pose proof (global_middleware_preflight (fun h => h) (fun h => h) (fun h => h)
                true true noting options emptyExchange) as [Ho _].
  pose proof (global_middleware_preflight (fun h => h) (fun h => h) (fun h => h)
                false false noting getThings emptyExchange) as [_ Hg].
  split.
  - apply Ho. reflexivity.
  - apply Hg. discriminate.
Defined.

(** The header middleware hands the request on with both API headers set
    to the same JSON value, made of the key and the token the request came
    with.  When that JSON decodes back to the pair, the key-token handling
    gives the same answer on either header, and accepts exactly when the
    request's key and token are both present, the connector knows the key,
    the token matches and the key has not expired. *)
Theorem middleware_then_key_handling (env : Env)
    (json_Marshal : keyTokenHeader -> string) (r : Request) :
  let key := Header_Get (Header r) X_API_KEY in
  let token := Header_Get (Header r) X_API_TOKEN in
  json_Unmarshal env (json_Marshal {| Key := key; Token := token |})
    {| Key := ""; Token := "" |} = {| Key := key; Token := token |} ->
  exists r',
    (forall handler x,
       setupMiddlewares json_Marshal handler r x
       = handler r' (InfoMessage "generated both headers X-API-KEY and X-API-TOKEN" x))
    /\ Method r' = Method r /\ URL r' = URL r
    /\ Header_Get (Header r') X_API_KEY = json_Marshal {| Key := key; Token := token |}
    /\ Header_Get (Header r') X_API_TOKEN = Header_Get (Header r') X_API_KEY
    /\ forall res,
         fst (headerAPIKeyHandling env (Header_Get (Header r') X_API_KEY)) = inl res
         <-> key <> "" /\ token <> ""
             /\ exists hashed validatedKey,
                  ValidateToken env key = inl (hashed, validatedKey)
                  /\ TokenHashCompare env hashed token = true
                  /\ (KeyExpiresUnix validatedKey = (-1)%Z
                      \/ (NowUnix env <= KeyExpiresUnix validatedKey)%Z)
                  /\ res = {| TokenKey := validatedKey; TokenValue := token |}.
Proof.
  intros key token Hround.
  set (jkth := json_Marshal {| Key := key; Token := token |}) in *.
  exists (setRequestHeader X_API_TOKEN jkth (setRequestHeader X_API_KEY jkth r)).
  split; [reflexivity |]. split; [reflexivity |]. split; [reflexivity |].
  assert (Hk : Header_Get (Header (setRequestHeader X_API_TOKEN jkth
                                     (setRequestHeader X_API_KEY jkth r))) X_API_KEY
               = jkth).
  { unfold Header_Get, setRequestHeader, Header_Set. simpl.
    rewrite lookup_insert_ne by discriminate. by rewrite lookup_insert_eq. }
  assert (Ht : Header_Get (Header (setRequestHeader X_API_TOKEN jkth
                                     (setRequestHeader X_API_KEY jkth r))) X_API_TOKEN
               = jkth).
  { unfold Header_Get, setRequestHeader, Header_Set. simpl.
    by rewrite lookup_insert_eq. }
  split; [exact Hk |]. split; [by rewrite Hk, Ht |].
  intros res. rewrite Hk.
  pose proof (AuthProps.accepted_characterisation env jkth res) as Hiff.
  cbv zeta in Hiff.
  assert (Hr : json_Unmarshal env jkth {| Key := ""; Token := "" |}
               = {| Key := key; Token := token |}) by exact Hround.
  setoid_rewrite Hr in Hiff. exact Hiff.
Qed.

Lemma middleware_then_key_handling_witness :
  exists r',
    Header_Get (Header r') X_API_TOKEN = "k1/t1"
    /\ fst (headerAPIKeyHandling exampleEnv (Header_Get (Header r') X_API_KEY))
       = inl {| TokenKey := {| KeyID := "k1"; KeyExpiresUnix := -1 |};
                TokenValue := "t1" |}.
Proof.
  destruct (middleware_then_key_handling exampleEnv slashMarshal getThings)
    as (r' & _ & _ & _ & Hk & Ht & Hacc); [reflexivity |].
  exists r'. split; [by rewrite Ht, Hk |].
  apply Hacc. split; [discriminate |]. split; [discriminate |].
  exists "h(t1)", {| KeyID := "k1"; KeyExpiresUnix := -1 |}.
  repeat split. by left.
Defined.

End MiddlewareProps.

Module KeysProps.
Import Batch Keys.

Example refs_two :
  generateMultipleRefObject "http://h" "Key" ["a"; "b"]
  = [ {| LocationURL := "http://h"; NrDollarCref := "a"; RefType := "Key" |};
      {| LocationURL := "http://h"; NrDollarCref := "b"; RefType := "Key" |} ].
Proof. reflexivity. Qed.

Example delete_subtree :
  deleteKey treeConnector [("root", ""); ("a", "root"); ("b", "root"); ("c", "x")]
    [] "root"
  = ([("c", "x")],
     [CallGetKey "a"; CallDeleteKey (Some "root") "a";
      CallGetKey "b"; CallDeleteKey (Some "root") "b";
      CallGetKey "root"; CallDeleteKey (Some "") "root"]).
Proof. vm_compute. reflexivity. Qed.

Lemma appendRefs_app url refType keyIDs refs :
  appendRefs url refType keyIDs refs
  = refs ++ ((fun keyID => {| LocationURL := url; NrDollarCref := keyID;
                              RefType := refType |}) <$> keyIDs).
Proof.
  revert refs. induction keyIDs as [|k rest IH]; intros refs; simpl.
  - by rewrite app_nil_r.
  - rewrite IH. by rewrite <- app_assoc.
Qed.

(** generateMultipleRefObject makes one reference per key id, in the order
    of the ids: reference i points to key id i at this host and has the
    key reference type; no ids give no references. *)
Theorem multiple_refs_follow_ids (hostAddress refType : string)
    (keyIDs : list string) :
  let refs := generateMultipleRefObject hostAddress refType keyIDs in
  length refs = length keyIDs
  /\ forall i, refs !! i
       = (fun keyID => {| LocationURL := hostAddress; NrDollarCref := keyID;
                          RefType := refType |}) <$> keyIDs !! i.
Proof.
  unfold generateMultipleRefObject. rewrite appendRefs_app. simpl.
  split; [apply length_fmap |]. intros i. apply list_lookup_fmap.
Qed.

Lemma deleteEach_deleted {C K} (conn : KeyConnector C K) allIDs c
    (calls : list (KeyCall K)) :
  deletedIDs (snd (deleteEach conn allIDs c calls)) = deletedIDs calls ++ allIDs
  /\ length (snd (deleteEach conn allIDs c calls)) = length calls + 2 * length allIDs.
Proof.
  assert (Happ : forall (a b : list (KeyCall K)),
            deletedIDs (a ++ b) = deletedIDs a ++ deletedIDs b).
  { induction a as [|[k | key k] a IH]; intros b; simpl; rewrite ?IH; reflexivity. }
  revert c calls. induction allIDs as [|keyID rest IH]; intros c calls; simpl.
  - rewrite app_nil_r. split; [reflexivity | lia].
  - destruct (IH (DeleteKey conn c (GetKey conn c keyID) keyID)
                (calls ++ [CallGetKey keyID;
                           CallDeleteKey (GetKey conn c keyID) keyID]))
      as [Hd Hl].
    rewrite Hd, Hl, Happ, length_app. simpl. rewrite <- app_assoc. simpl.
    split; [reflexivity | lia].
Qed.

Lemma deleteEach_last {C K} (conn : KeyConnector C K) children parentUUID c
    (calls : list (KeyCall K)) :
  exists key,
    last (snd (deleteEach conn (children ++ [parentUUID]) c calls))
    = Some (CallDeleteKey key parentUUID).
Proof.
  revert c calls. induction children as [|k rest IH]; intros c calls; simpl.
  - exists (GetKey conn c parentUUID).
    change (calls ++ [CallGetKey parentUUID;
                      CallDeleteKey (GetKey conn c parentUUID) parentUUID])
      with (calls ++ [CallGetKey parentUUID]
                  ++ [CallDeleteKey (GetKey conn c parentUUID) parentUUID]).
    rewrite app_assoc. apply last_snoc.
  - apply IH.
Qed.

(** deleteKey deletes every child the lookup returns, in that order, and
    then the parent itself, which is always deleted and always last, also
    when the lookup returns no children; each deletion comes with one
    GetKey before it. *)
Theorem delete_key_children_then_parent {C K} (conn : KeyConnector C K)
    (c : C) (parentUUID : string) :
  let calls := snd (deleteKey conn c [] parentUUID) in
  deletedIDs calls = GetKeyChildrenUUIDs conn c parentUUID ++ [parentUUID]
  /\ length calls = 2 * (length (GetKeyChildrenUUIDs conn c parentUUID) + 1)
  /\ exists key, last calls = Some (CallDeleteKey key parentUUID).
Proof.
  unfold deleteKey. simpl.
  destruct (deleteEach_deleted conn
              (GetKeyChildrenUUIDs conn c parentUUID ++ [parentUUID]) c [])
    as [Hd Hl].
  split; [exact Hd |]. split; [rewrite Hl, length_app; simpl; lia |].
  apply deleteEach_last.
Qed.

End KeysProps.

Module SchemaDumpProps.
Import SchemaDumpClient.

Example validate_both_bad :
  Validate exampleValidate exampleValidateName
    {| Actions := Some ["Move"; ""]; Things := Some ["?"] |}
  = Some [Validation ("weaviateSchemaDumpOK.actions", "name is required");
          OtherError "unreadable"].
Proof. vm_compute. reflexivity. Qed.

Example validate_absent :
  Validate exampleValidate exampleValidateName
    {| Actions := None; Things := Some ["City"] |} = None.
Proof. vm_compute. reflexivity. Qed.

Section Props.
Context {S V : Type}.
Context (SemanticSchema_Validate : S -> option (ValidateError V)).
Context (ValidateName : string -> V -> V).

(** The body of a schema dump is valid exactly when each part that is
    present is valid; an absent part is not validated.  Otherwise the
    composite error lists the error of the actions before the error of the
    things: a validation error renamed to the part's path
    (weaviateSchemaDumpOK.actions, weaviateSchemaDumpOK.things), any other
    error as it is. *)
Theorem schema_dump_validate (o : WeaviateSchemaDumpOKBody S) :
  let failure name part :=
    match part with
    | Some schema =>
        match SemanticSchema_Validate schema with
        | Some (Validation ve) => [Validation (ValidateName name ve)]
        | Some err => [err]
        | None => []
        end
    | None => []
    end in
  let errors := failure "weaviateSchemaDumpOK.actions" (Actions o)
                ++ failure "weaviateSchemaDumpOK.things" (Things o) in
  (Validate SemanticSchema_Validate ValidateName o = None
   <-> (forall schema, Actions o = Some schema ->
          SemanticSchema_Validate schema = None)
       /\ (forall schema, Things o = Some schema ->
          SemanticSchema_Validate schema = None))
  /\ (forall res, Validate SemanticSchema_Validate ValidateName o = Some res ->
        res = errors /\ 1 <= length res <= 2).
Proof.
  cbv zeta. unfold Validate, validateActions, validateThings, validatePart.
  destruct o as [[a|] [t|]]; simpl;
    repeat match goal with
           | |- context [SemanticSchema_Validate ?x] =>
               destruct (SemanticSchema_Validate x) as [[?|?]|] eqn:?
           end; simpl;
    (split;
     [naive_solver
     | intros res Hr;
       first [discriminate Hr
             | injection Hr as <-; split; [reflexivity | simpl; lia]]]).
Qed.

(** The reader of the schema dump returns a result only for the status 200
    and only when the consumer does not fail; reaching the end of the body
    (io.EOF) counts as success and leaves what the consumer decoded into a
    fresh payload.  The status 401 gives the unauthorized error without
    looking at the body, and every other status an API error that carries
    the status. *)
Theorem schema_dump_read_response (code : Z)
    (consume : WeaviateSchemaDumpOKBody S
               -> WeaviateSchemaDumpOKBody S * option ConsumeError) :
  let consumed := consume {| Actions := None; Things := None |} in
  (forall result,
     ReadResponse code consume = inl result
     <-> code = 200%Z /\ result = fst consumed
         /\ (snd consumed = None \/ snd consumed = Some io_EOF))
  /\ (code = 200%Z -> forall err, snd consumed = Some (ConsumeFailed err) ->
        ReadResponse code consume = inr (ConsumerError err))
  /\ (code = 401%Z -> ReadResponse code consume = inr WeaviateSchemaDumpUnauthorized)
  /\ (code <> 200%Z -> code <> 401%Z ->
        ReadResponse code consume = inr (APIError "unknown error" code)).
Proof.
  unfold ReadResponse, readResponseOK. simpl.
  destruct (consume {| Actions := None; Things := None |}) as [payload err] eqn:Hc.
  simpl. repeat split.
  - destruct (Z.eqb_spec code 200); [done |].
    destruct (code =? 401)%Z; discriminate.
  - destruct (code =? 200)%Z; [| destruct (code =? 401)%Z; discriminate].
    destruct err as [[| m]|]; congruence.
  - destruct (code =? 200)%Z; [| destruct (code =? 401)%Z; discriminate].
    destruct err as [[| m]|]; try discriminate; auto.
  - intros (-> & -> & Herr). simpl.
    destruct Herr as [-> | ->]; reflexivity.
  - intros -> e ->. reflexivity.
  - intros ->. reflexivity.
  - intros H200 H401. apply Z.eqb_neq in H200, H401. by rewrite H200, H401.
Qed.

End Props.

Lemma schema_dump_read_response_witness :
  ReadResponse 401 (fun p : WeaviateSchemaDumpOKBody (list string) => (p, None))
    = inr WeaviateSchemaDumpUnauthorized
  /\ ReadResponse 503 (fun p : WeaviateSchemaDumpOKBody (list string) => (p, None))
    = inr (APIError "unknown error" 503)
  /\ ReadResponse 200
       (fun p : WeaviateSchemaDumpOKBody (list string) => (p, Some (ConsumeFailed "bad json")))
    = inr (ConsumerError "bad json").
Proof.
  split; [| split].
  - apply (schema_dump_read_response 401
             (fun p : WeaviateSchemaDumpOKBody (list string) => (p, None))).
    reflexivity.
  - apply (schema_dump_read_response 503
             (fun p : WeaviateSchemaDumpOKBody (list string) => (p, None)));
      discriminate.
  - apply (schema_dump_read_response 200
             (fun p : WeaviateSchemaDumpOKBody (list string)
              => (p, Some (ConsumeFailed "bad json")))); reflexivity.
Defined.

Lemma schema_dump_validate_witness :
  exists res,
    Validate exampleValidate exampleValidateName
      {| Actions := Some ["Move"; ""]; Things := Some ["?"] |} = Some res
    /\ length res = 2.
Proof.
  eexists. split; [vm_compute; reflexivity |].
  pose proof (proj2 (schema_dump_validate exampleValidate exampleValidateName
                       {| Actions := Some ["Move"; ""]; Things := Some ["?"] |})
                _ eq_refl) as [-> _].
  reflexivity.
Defined.

End SchemaDumpProps.

Module LimitMoreProps.
Import Limit.
Local Open Scope Z_scope.

(** While the configured limit and the request's parameter are below 2^53
    in magnitude, getLimit is the smaller of the two, or the limit itself
    without a parameter, and so never exceeds the limit; a negative
    parameter is returned as it is. *)
Theorem getLimit_min_below_2p53 (Limit : Z) (paramMaxResults : option Z) :
  Z.abs Limit < 2 ^ 53 ->
  (forall v, paramMaxResults = Some v -> Z.abs v < 2 ^ 53) ->
  getLimit Limit paramMaxResults
    = match paramMaxResults with
      | Some v => Z.min v Limit
      | None => Limit
      end
  /\ getLimit Limit paramMaxResults <= Limit.
Proof.
  intros HL Hp.
  rewrite (LimitProps.getLimit_exact_range Limit paramMaxResults HL).
  - destruct paramMaxResults; lia.
  - destruct paramMaxResults as [v|]; [by apply Hp | exact I].
Qed.

Lemma getLimit_min_below_2p53_witness :
  getLimit 100 (Some 20) = 20 /\ getLimit 100 (Some (-3)) = -3.
Proof.
  split.
  - apply (getLimit_min_below_2p53 100 (Some 20)).
    + vm_compute. reflexivity.
    + intros v [= <-]. vm_compute. reflexivity.
  - apply (getLimit_min_below_2p53 100 (Some (-3))).
    + vm_compute. reflexivity.
    + intros v [= <-]. vm_compute. reflexivity.
Defined.

End LimitMoreProps.

Module FieldsMoreProps.
Import Fields.

Lemma allRequested_lower (fields : list string) :
  allRequested fields = true <-> "all" ∈ ToLower <$> fields.
Proof.
  induction fields as [|f rest IH]; simpl.
  - split; [discriminate | intros Hin; inversion Hin].
  - destruct (String.eqb_spec (ToLower f) "all") as [E | NE].
    + split; [intros _ | reflexivity]. rewrite E. apply list_elem_of_here.
    + rewrite IH. split.
      * intros Hin. by apply list_elem_of_further.
      * intros Hin. apply elem_of_cons in Hin as [E | Hin]; [congruence | done].
Qed.

Lemma keepProvided_lookup (fields : list string) (m : gmap string Z) (k : string) :
  keepProvided fields m !! k
  = if decide (k ∈ ToLower <$> fields) then Some 0%Z else m !! k.
Proof.
  revert m. induction fields as [|f rest IH]; intros m; cbn [keepProvided].
  - rewrite decide_False; [reflexivity |]. rewrite fmap_nil. apply not_elem_of_nil.
  - rewrite IH, fmap_cons.
    destruct (decide (k ∈ ToLower <$> rest)) as [Hin | Hnin].
    + rewrite decide_True; [reflexivity | by apply list_elem_of_further].
    + rewrite lookup_insert.
      destruct (decide (ToLower f = k)) as [E | NE].
      * rewrite decide_True; [reflexivity | rewrite E; apply list_elem_of_here].
      * rewrite decide_False; [reflexivity |].
        intros H. apply elem_of_cons in H as [E | H]; [congruence | done].
Qed.

(** determineResponseFields depends only on the set of the lower-cased
    field names: two field lists with the same names up to order,
    repetition and letter case give the same fields to keep. *)
Theorem same_names_same_fields (fields fields' : list string) (isThingsCreate : bool) :
  (forall k, k ∈ ToLower <$> fields <-> k ∈ ToLower <$> fields') ->
  determineResponseFields fields isThingsCreate
  = determineResponseFields fields' isThingsCreate.
Proof.
  intros Hsame. unfold determineResponseFields.
  assert (Hall : allRequested fields = allRequested fields').
  { destruct (allRequested fields) eqn:E, (allRequested fields') eqn:E'; try reflexivity.
    - apply allRequested_lower, Hsame, allRequested_lower in E. congruence.
    - apply allRequested_lower, Hsame, allRequested_lower in E'. congruence. }
  assert (Hempty : (0 <? length fields)%nat = (0 <? length fields')%nat).
  { destruct fields as [|f l], fields' as [|f' l']; try reflexivity; exfalso.
    - assert (Hin : ToLower f' ∈ ToLower <$> (f' :: l')) by apply list_elem_of_here.
      apply Hsame in Hin. inversion Hin.
    - assert (Hin : ToLower f ∈ ToLower <$> (f :: l)) by apply list_elem_of_here.
      apply Hsame in Hin. inversion Hin. }
  rewrite Hall, Hempty.
  destruct (0 <? length fields')%nat; [| reflexivity].
  destruct (allRequested fields'); [reflexivity |].
  apply map_eq. intros k. rewrite !keepProvided_lookup.
  repeat case_decide; try reflexivity; exfalso; naive_solver.
Qed.

Lemma same_names_same_fields_witness :
  determineResponseFields ["Key"; "SCHEMA"; "key"] true
  = determineResponseFields ["schema"; "KEY"] true.
Proof.
  apply same_names_same_fields. intros k. simpl.
  rewrite !elem_of_cons, !elem_of_nil. vm_compute. tauto.
Defined.

End FieldsMoreProps.

Module BatchMoreProps.
Import Fields Batch BatchSpec BatchMoreSpec Examples MoreExamples.

Lemma appendMessages_app (messages er : list string) :
  appendMessages messages er = er ++ messages.
Proof.
  revert er. induction messages as [|m rest IH]; intros er; simpl.
  - by rewrite app_nil_r.
  - rewrite IH. by rewrite <- app_assoc.
Qed.

(** createErrorResponseObject makes one error item per message, in the
    order of the messages; without messages the error list is empty. *)
Theorem error_response_lists_messages (messages : list string) :
  createErrorResponseObject messages = messages.
Proof. unfold createErrorResponseObject. apply appendMessages_app. Qed.

Section Runs.
Context {C : Type} (env : Env C).

Ltac unfold_M :=
  unfold handleBatchedCreateRequest, asyncWrite, connutils_GenerateUUID,
    connutils_NowUnix, tick, new, assign, IncSteps, Unlock, go, connectorAdd,
    validateBody, send, wgDone, emit, mbind, M_bind, mret, M_ret.

(** Everything the task of an item does, by the outcome of the validation,
    the mode, and the outcome of the connector write. *)
Lemma item_task_effects isThingsCreate batchedRequest requestIndex async
    principal fieldsToKeep (w : World C) :
  length (requestResults w) < capacity w ->
  let UUID := GenerateUUID env (ticks w) in
  let object :=
    selectedObject env fieldsToKeep principal batchedRequest
      (if keeps fieldsToKeep "creationtimeunix"
       then NowUnix env (S (ticks w)) else 0%Z) in
  let id := if keeps fieldsToKeep (idField isThingsCreate) then UUID else "" in
  let loc := length (heap w) in
  exists res w',
    handleBatchedCreateRequest env isThingsCreate batchedRequest requestIndex
      async principal fieldsToKeep w = Done (tt, w')
    /\ heap w' = heap w ++ [ {| Obj := object; ObjectID := id; ObjResult := res |} ]
    /\ requestResults w' = requestResults w ++ [(requestIndex, loc)]
    /\ capacity w' = capacity w
    /\ finished w' = finished w ++ [requestIndex]
    /\ match validationOf env isThingsCreate batchedRequest (connector w) principal with
       | Some e =>
           res = {| Status := Some FAILED; Errors := Some [e] |}
           /\ trace w' = trace w ++ [EvSend requestIndex loc]
           /\ spawned w' = spawned w
           /\ connector w' = connector w
       | None =>
           if async then
             res = {| Status := Some PENDING; Errors := None |}
             /\ trace w' = trace w ++ [EvIncSteps requestIndex; EvGo requestIndex;
                                       EvSend requestIndex loc]
             /\ spawned w' = spawned w ++ [ {| aw_requestIndex := requestIndex;
                                              aw_responseObject := loc;
                                              aw_object := object;
                                              aw_UUID := UUID |} ]
             /\ connector w' = connector w
           else
             res = match (addOf env isThingsCreate (connector w) object UUID).2 with
                   | Some e => {| Status := Some FAILED; Errors := Some [e] |}
                   | None => {| Status := None; Errors := None |}
                   end
             /\ trace w' = trace w
                  ++ [EvWrite requestIndex
                        (addOf env isThingsCreate (connector w) object UUID).2;
                      EvSend requestIndex loc]
             /\ spawned w' = spawned w
             /\ connector w' = (addOf env isThingsCreate (connector w) object UUID).1
       end.
Proof.
  intros Hroom. apply Nat.ltb_lt in Hroom. cbv zeta.
  unfold validationOf, addOf, selectedObject, idField.
  unfold_M.
  destruct (keeps fieldsToKeep "creationtimeunix"), isThingsCreate; simpl.
  all: match goal with
       | |- context [ValidateThingBody env ?a ?b ?c] =>
           destruct (ValidateThingBody env a b c) as [e|]
       | |- context [ValidateActionBody env ?a ?b ?c] =>
           destruct (ValidateActionBody env a b c) as [e|]
       end; simpl.
  all: try (destruct async; simpl).
  all: try match goal with
       | |- context [AddThing env ?a ?b ?c] =>
           destruct (AddThing env a b c) as [c' [e|]]
       | |- context [AddAction env ?a ?b ?c] =>
           destruct (AddAction env a b c) as [c' [e|]]
       end; simpl.
  all: rewrite ?BatchProps.alter_last; simpl; rewrite Hroom; simpl.
  all: rewrite ?BatchProps.alter_last; simpl.
  all: eexists _, _; split; [reflexivity |]; simpl.
  all: rewrite <- ?app_assoc; simpl.
  all: repeat split; reflexivity.
Qed.

(** Everything an asynchronous write does. *)
Lemma async_write_effects isThingsCreate (t : AsyncWrite) (w : World C) :
  let written := addOf env isThingsCreate (connector w) (aw_object t) (aw_UUID t) in
  exists w',
    asyncWrite env isThingsCreate t w = Done (tt, w')
    /\ connector w' = written.1
    /\ trace w' = trace w ++ [EvWrite (aw_requestIndex t) written.2;
                              EvUnlock (ByAsyncWrite (aw_requestIndex t))]
    /\ spawned w' = spawned w
    /\ requestResults w' = requestResults w
    /\ capacity w' = capacity w
    /\ finished w' = finished w
    /\ heap w' = match written.2 with
                 | Some e => alter (failedWith e) (aw_responseObject t) (heap w)
                 | None => heap w
                 end.
Proof.
  cbv zeta. unfold addOf. unfold_M.
  destruct isThingsCreate; simpl.
  - destruct (AddThing env _ _ _) as [c' [e|]]; simpl;
      eexists; (split; [reflexivity |]); simpl;
      rewrite <- ?app_assoc; repeat split; try reflexivity.
    rewrite list_alter_alter_eq. reflexivity.
  - destruct (AddAction env _ _ _) as [c' [e|]]; simpl;
      eexists; (split; [reflexivity |]); simpl;
      rewrite <- ?app_assoc; repeat split; try reflexivity.
    rewrite list_alter_alter_eq. reflexivity.
Qed.

Lemma takeSpawned_spec (i : nat) (sp : list AsyncWrite) t rest :
  takeSpawned i sp = Some (t, rest) ->
  aw_requestIndex t = i
  /\ t ∈ sp
  /\ (forall t', t' ∈ rest -> t' ∈ sp)
  /\ length sp = S (length rest)
  /\ forall j, pendingOf j sp
               = pendingOf j rest + (if (i =? j)%nat then 1 else 0).
Proof.
  revert rest. induction sp as [|t0 sp IH]; intros rest; simpl; [discriminate |].
  destruct (Nat.eqb_spec (aw_requestIndex t0) i) as [E | NE].
  - intros [= <- <-]. split; [exact E |]. split; [apply list_elem_of_here |].
    split; [intros t' Ht'; by apply list_elem_of_further |].
    split; [reflexivity |].
    intros j. unfold pendingOf. simpl. rewrite E.
    destruct (i =? j)%nat; simpl; lia.
  - destruct (takeSpawned i sp) as [[t1 rest1]|]; [| discriminate].
    intros [= <- <-]. destruct (IH rest1 eq_refl) as (Hi & Hin & Hsub & Hlen & Hpend).
    split; [exact Hi |]. split; [by apply list_elem_of_further |].
    split.
    { intros t' Ht'. apply elem_of_cons in Ht' as [-> | Ht'];
        [apply list_elem_of_here | apply list_elem_of_further; by apply Hsub]. }
    split; [simpl; lia |].
    intros j. specialize (Hpend j). unfold pendingOf in *. simpl.
    destruct (aw_requestIndex t0 =? j)%nat; simpl; lia.
Qed.

Lemma count_app (p : Event -> bool) (a b : list Event) :
  count p (a ++ b) = count p a + count p b.
Proof. unfold count. by rewrite List.filter_app, length_app. Qed.

Lemma count_cons (p : Event -> bool) (e : Event) (l : list Event) :
  count p (e :: l) = (if p e then 1 else 0) + count p l.
Proof. unfold count. simpl. by destruct (p e). Qed.

Lemma count_nil (p : Event -> bool) : count p [] = 0.
Proof. reflexivity. Qed.

Ltac counts := rewrite ?count_app, ?count_cons, ?count_nil; simpl.

Section Schedule.
Variables (isThingsCreate : bool) (params_Body : Body)
          (principal : KeyTokenGetResponse) (fieldsToKeep : gmap string Z).

Local Abbreviation Inv := (BatchSpec.Inv params_Body fieldsToKeep).

(** A property of the shared world that the task of an unfinished item and
    a started asynchronous write both keep holds after every schedule. *)
Lemma runSchedule_preserves (P : World C -> Prop) :
  (forall w i req w', Inv w -> P w ->
     Items params_Body !! i = Some req -> i ∉ finished w ->
     handleBatchedCreateRequest env isThingsCreate req i (Async params_Body)
       principal fieldsToKeep w = Done (tt, w') -> P w') ->
  (forall w i t rest w', Inv w -> P w ->
     takeSpawned i (spawned w) = Some (t, rest) ->
     asyncWrite env isThingsCreate t (set_spawned rest w) = Done (tt, w') -> P w') ->
  forall sched w w', Inv w -> P w ->
    runSchedule env isThingsCreate params_Body principal fieldsToKeep sched w
      = Done (tt, w') -> P w'.
Proof.
  intros Hitem Hasync. induction sched as [|s rest IH]; intros w w' HI HP; simpl.
  - by intros [= <-].
  - destruct (BatchProps.runStep_inv env isThingsCreate params_Body principal
                fieldsToKeep s w HI) as (w1 & Hrun1 & HI1 & _ & _).
    unfold mbind, M_bind. rewrite Hrun1. intros Hrest.
    apply (IH w1 w' HI1); [| exact Hrest].
    clear Hrest IH. unfold runStep in Hrun1. destruct s as [i | i].
    + destruct (Items params_Body !! i) as [req|] eqn:Hreq.
      * case_bool_decide as Hfin.
        -- by injection Hrun1 as <-.
        -- by apply (Hitem w i req w1).
      * by injection Hrun1 as <-.
    + destruct (takeSpawned i (spawned w)) as [[t rest']|] eqn:Htake.
      * by apply (Hasync w i t rest' w1).
      * by injection Hrun1 as <-.
Qed.

End Schedule.

Lemma started_inv params_Body fieldsToKeep (w0 : World C) :
  BatchSpec.Inv params_Body fieldsToKeep (started (length (Items params_Body)) w0).
Proof.
  constructor; simpl; try done.
  - apply NoDup_nil_2.
  - intros i Hi. inversion Hi.
  - intros i loc Hi. inversion Hi.
Qed.

(** How an OK answer comes about: the schedule runs from the started world
    to a world in which every item has finished, the payload is read off
    its channel, and the handler's unlock is the last event. *)
Lemma handler_ok_run isThingsCreate principal params_Body sched (w0 : World C)
    payload w' :
  BatchingCreateHandler env isThingsCreate principal params_Body sched w0
    = Done (OK payload, w') ->
  let fieldsToKeep :=
    determineResponseFields (BodyFields params_Body) isThingsCreate in
  let amount := length (Items params_Body) in
  exists w2,
    runSchedule env isThingsCreate params_Body principal fieldsToKeep sched
      (started amount w0) = Done (tt, w2)
    /\ BatchSpec.Inv params_Body fieldsToKeep w2
    /\ length (finished w2) = amount
    /\ collectResults (requestResults w2) (replicate amount None) = Done payload
    /\ heap w' = heap w2
    /\ requestResults w' = requestResults w2
    /\ spawned w' = spawned w2
    /\ connector w' = connector w2
    /\ finished w' = finished w2
    /\ trace w' = trace w2 ++ [EvUnlock ByHandler].
Proof.
  intros Hrun fieldsToKeep amount. revert Hrun.
  unfold BatchingCreateHandler, Unlock, emit, mbind, M_bind, mret, M_ret. simpl.
  destruct (ActionsAllowed env principal (connector w0)); simpl; [| discriminate].
  fold amount. destruct (Nat.eqb_spec amount 0) as [Hz | Hnz]; [discriminate |].
  fold fieldsToKeep.
  change (set_finished [] (set_channel [] amount (set_lock delayed_unlock_New w0)))
    with (started amount w0).
  destruct (BatchProps.runSchedule_inv env isThingsCreate params_Body principal
              fieldsToKeep sched (started amount w0)
              (started_inv params_Body fieldsToKeep w0))
    as (w2 & Hsched & HI2 & _ & _).
  rewrite Hsched. unfold wgWait.
  destruct (Nat.eqb_spec (length (finished w2)) amount) as [Hlen | Hlen];
    [| discriminate].
  destruct (collectResults (requestResults w2) (replicate amount None))
    as [arr | why] eqn:Hcollect; [| discriminate].
  simpl. intros [= <- <-]. exists w2.
  split; [first [reflexivity | exact Hsched] |].
  split; [exact HI2 |]. split; [exact Hlen |].
  split; [first [reflexivity | exact Hcollect] |]. simpl. repeat split.
Qed.

(** The entries of the payload come from the channel. *)
Lemma payload_entry_from_channel params_Body fieldsToKeep (w2 : World C) payload :
  BatchSpec.Inv params_Body fieldsToKeep w2 ->
  collectResults (requestResults w2) (replicate (length (Items params_Body)) None)
    = Done payload ->
  (forall i loc, (i, loc) ∈ requestResults w2 -> payload !! i = Some (Some loc))
  /\ (forall i loc, payload !! i = Some (Some loc) -> (i, loc) ∈ requestResults w2).
Proof.
  intros [Hc Hnd Hb Hch Hobj] Hcollect.
  destruct (BatchProps.collectResults_spec (requestResults w2)
              (replicate (length (Items params_Body)) None))
    as (arr & Hrun & Hlen & Hin & Hout).
  { by rewrite Hch. }
  { intros i loc Hi. rewrite length_replicate. apply Hb. rewrite <- Hch.
    apply list_elem_of_fmap. by exists (i, loc). }
  rewrite Hrun in Hcollect. injection Hcollect as <-.
  split; [exact Hin |].
  intros i loc Hp.
  destruct (decide (i ∈ (requestResults w2).*1)) as [Hi | Hi].
  - apply list_elem_of_fmap in Hi as ([j l] & Hj & Hmem). simpl in Hj. subst j.
    rewrite (Hin i l Hmem) in Hp. by injection Hp as <-.
  - rewrite (Hout i Hi) in Hp. apply lookup_replicate in Hp as [Hp _]. discriminate.
Qed.

Lemma filtered_failedWith fieldsToKeep isThingsCreate principal e r :
  Filtered env fieldsToKeep isThingsCreate principal r ->
  Filtered env fieldsToKeep isThingsCreate principal (failedWith e r).
Proof. intros H. exact H. Qed.

(** Every entry of a batch response shows only the selected fields, for
    every item and every schedule: it has the key reference, to this host
    and the principal's key, exactly when "key" is among the fields to
    keep; its class, schema, creation time and id are the zero values when
    "@class", "schema", "creationtimeunix" and the id field ("actionid" or
    "thingid") are not kept; its update time is 0. *)
Theorem response_entries_filtered isThingsCreate principal params_Body sched
    (w0 : World C) payload w' :
  BatchingCreateHandler env isThingsCreate principal params_Body sched w0
    = Done (OK payload, w') ->
  forall i loc, payload !! i = Some (Some loc) ->
    exists r, heap w' !! loc = Some r
              /\ Filtered env
                   (determineResponseFields (BodyFields params_Body) isThingsCreate)
                   isThingsCreate principal r.
Proof.
  intros Hrun.
  destruct (handler_ok_run _ _ _ _ _ _ _ Hrun)
    as (w2 & Hsched & HI2 & Hlen & Hcollect & Hheap & _).
  set (f := determineResponseFields (BodyFields params_Body) isThingsCreate) in *.
  set (P := fun w : World C =>
              forall i loc, (i, loc) ∈ requestResults w ->
                exists r, heap w !! loc = Some r
                          /\ Filtered env f isThingsCreate principal r).
  assert (HP : P w2).
  { apply (runSchedule_preserves isThingsCreate params_Body principal f P)
      with (sched := sched) (w := started (length (Items params_Body)) w0);
      [| | apply started_inv | | exact Hsched].
    - intros w i req w1 HI HPw Hreq Hfin Htask.
      assert (Hi : i < length (Items params_Body)) by (by eapply lookup_lt_Some).
      destruct (item_task_effects isThingsCreate req i (Async params_Body)
                  principal f w (BatchProps.inv_room _ _ w i HI Hi Hfin))
        as (res & w1' & Htask' & Hh & Hch & _).
      rewrite Htask in Htask'. injection Htask' as <-.
      intros j loc. rewrite Hch, elem_of_app, list_elem_of_singleton.
      intros [Hin | [= -> ->]].
      + destruct (HPw j loc Hin) as (r & Hr & Hf).
        exists r. rewrite Hh, lookup_app_l by (by eapply lookup_lt_Some). done.
      + eexists. rewrite Hh, list_lookup_middle by done. split; [reflexivity |].
        unfold Filtered, selectedObject. simpl.
        repeat split; try reflexivity; intros ->; reflexivity.
    - intros w i t rest w1 HI HPw Htake Hrun1.
      destruct (async_write_effects isThingsCreate t (set_spawned rest w))
        as (w1' & Hrun1' & _ & _ & _ & Hch & _ & _ & Hh).
      rewrite Hrun1 in Hrun1'. injection Hrun1' as <-. simpl in Hch, Hh.
      intros j loc. rewrite Hch. intros Hin.
      destruct (HPw j loc Hin) as (r & Hr & Hf).
      rewrite Hh.
      destruct (addOf env isThingsCreate (connector w) (aw_object t) (aw_UUID t)).2
        as [e|]; [| by exists r].
      rewrite list_lookup_alter. case_decide as E.
      + subst loc. exists (failedWith e r). rewrite Hr. split; [reflexivity |].
        by apply filtered_failedWith.
      + by exists r.
    - intros i loc Hi. inversion Hi. }
  intros i loc Hp.
  apply (payload_entry_from_channel _ _ _ _ HI2 Hcollect) in Hp.
  rewrite Hheap. exact (HP i loc Hp).
Qed.

(** A request of a principal that may not write is answered with the
    forbidden response whatever the batch holds, and nothing else happens:
    no item task runs, nothing is sent or started, and the connector is
    left as it was. *)
Theorem unauthorised_request_untouched isThingsCreate principal params_Body sched
    (w0 : World C) :
  ActionsAllowed env principal (connector w0) = false ->
  exists w',
    BatchingCreateHandler env isThingsCreate principal params_Body sched w0
      = Done (Forbidden, w')
    /\ Untouched w0 w'.
Proof.
  intros Hallowed.
  pose proof (BatchProps.handler_cases env isThingsCreate principal params_Body
                sched w0) as Hc.
  simpl in Hc.
  destruct (BatchingCreateHandler env isThingsCreate principal params_Body sched w0)
    as [[[| e | payload] w'] | why].
  - exists w'. split; [reflexivity | apply Hc].
  - destruct Hc as [Hc _]. congruence.
  - destruct Hc as [Hc _]. congruence.
  - destruct Hc as [Hc _]. congruence.
Qed.

Lemma pendingOf_app (j : nat) (a b : list AsyncWrite) :
  pendingOf j (a ++ b) = pendingOf j a + pendingOf j b.
Proof. unfold pendingOf. by rewrite List.filter_app, length_app. Qed.

Lemma takeSpawned_perm (i : nat) (sp : list AsyncWrite) t rest :
  takeSpawned i sp = Some (t, rest) -> sp ≡ₚ t :: rest.
Proof.
  revert rest. induction sp as [|t0 sp IH]; intros rest; simpl; [discriminate |].
  destruct (aw_requestIndex t0 =? i)%nat.
  - by intros [= <- <-].
  - destruct (takeSpawned i sp) as [[t1 rest1]|]; [| discriminate].
    intros [= <- <-]. rewrite (IH rest1 eq_refl). apply Permutation_swap.
Qed.

(** From a fresh log and with no write pending at the start: every
    asynchronous write the batch started was registered with IncSteps, and
    has either finished, with one Unlock of its own, or is still pending
    when the handler answers; the handler itself unlocks once; and a
    synchronous batch starts no asynchronous write at all. *)
Theorem spawn_accounting isThingsCreate principal params_Body sched
    (w0 : World C) payload w' :
  trace w0 = [] ->
  spawned w0 = [] ->
  BatchingCreateHandler env isThingsCreate principal params_Body sched w0
    = Done (OK payload, w') ->
  count isIncSteps (trace w') = count isGo (trace w')
  /\ count isGo (trace w') = count isAsyncUnlock (trace w') + length (spawned w')
  /\ count isHandlerUnlock (trace w') = 1
  /\ (Async params_Body = false -> count isGo (trace w') = 0 /\ spawned w' = []).
Proof.
  intros Htrace0 Hspawned0 Hrun.
  destruct (handler_ok_run _ _ _ _ _ _ _ Hrun)
    as (w2 & Hsched & HI2 & _ & _ & _ & _ & Hsp & _ & _ & Htr).
  set (f := determineResponseFields (BodyFields params_Body) isThingsCreate) in *.
  set (P := fun w : World C =>
              count isIncSteps (trace w) = count isGo (trace w)
              /\ count isGo (trace w)
                 = count isAsyncUnlock (trace w) + length (spawned w)
              /\ count isHandlerUnlock (trace w) = 0
              /\ (Async params_Body = false ->
                  count isGo (trace w) = 0 /\ spawned w = [])).
  assert (HP : P w2).
  { apply (runSchedule_preserves isThingsCreate params_Body principal f P)
      with (sched := sched) (w := started (length (Items params_Body)) w0);
      [| | apply started_inv | | exact Hsched].
    - intros w i req w1 HI (Hinc & Hgo & Hhu & Hsync) Hreq Hfin Htask.
      assert (Hi : i < length (Items params_Body)) by (by eapply lookup_lt_Some).
      destruct (item_task_effects isThingsCreate req i (Async params_Body)
                  principal f w (BatchProps.inv_room _ _ w i HI Hi Hfin))
        as (res & w1' & Htask' & _ & _ & _ & _ & Hcase).
      rewrite Htask in Htask'. injection Htask' as <-.
      destruct (validationOf env isThingsCreate req (connector w) principal).
      + destruct Hcase as (_ & Ht & Hs & _). unfold P.
        rewrite Ht, Hs. counts.
        split; [lia | split; [lia | split; [lia |]]].
        intros Ha. destruct (Hsync Ha). split; [lia | done].
      + destruct (Async params_Body) eqn:Hasync.
        * destruct Hcase as (_ & Ht & Hs & _). unfold P.
          rewrite Ht, Hs, length_app. counts.
          split; [lia | split; [lia | split; [lia | discriminate]]].
        * destruct Hcase as (_ & Ht & Hs & _). unfold P.
          rewrite Ht, Hs. counts. destruct (Hsync eq_refl).
          split; [lia | split; [lia | split; [lia |]]].
          intros _. split; [lia | done].
    - intros w i t rest w1 HI (Hinc & Hgo & Hhu & Hsync) Htake Hrun1.
      destruct (async_write_effects isThingsCreate t (set_spawned rest w))
        as (w1' & Hrun1' & _ & Ht & Hs & _).
      rewrite Hrun1 in Hrun1'. injection Hrun1' as <-. simpl in Ht, Hs.
      destruct (takeSpawned_spec i (spawned w) t rest Htake) as (_ & _ & _ & Hlen & _).
      unfold P. rewrite Ht, Hs. counts.
      split; [lia | split; [lia | split; [lia |]]].
      intros Ha. destruct (Hsync Ha) as [_ Hnil].
      rewrite Hnil in Htake. discriminate.
    - unfold P, started. simpl. rewrite Htrace0, Hspawned0.
      repeat split; reflexivity. }
  destruct HP as (Hinc & Hgo & Hhu & Hsync).
  rewrite Htr, Hsp. counts.
  split; [lia | split; [lia | split; [lia |]]].
  intros Ha. destruct (Hsync Ha). split; [lia | done].
Qed.

(** From a fresh log and with no write pending at the start, no item is
    written to the connector twice, whatever the schedule (also one that
    names an item repeatedly), and only items of the batch are written. *)
Theorem at_most_one_write_per_item isThingsCreate principal params_Body sched
    (w0 : World C) payload w' :
  trace w0 = [] ->
  spawned w0 = [] ->
  BatchingCreateHandler env isThingsCreate principal params_Body sched w0
    = Done (OK payload, w') ->
  forall i, count (isWriteOf i) (trace w') <= 1
            /\ (length (Items params_Body) <= i -> count (isWriteOf i) (trace w') = 0).
Proof.
  intros Htrace0 Hspawned0 Hrun.
  destruct (handler_ok_run _ _ _ _ _ _ _ Hrun)
    as (w2 & Hsched & HI2 & _ & _ & _ & _ & _ & _ & _ & Htr).
  set (f := determineResponseFields (BodyFields params_Body) isThingsCreate) in *.
  set (P := fun w : World C =>
              forall i, count (isWriteOf i) (trace w) + pendingOf i (spawned w)
                        <= (if bool_decide (i ∈ finished w) then 1 else 0)).
  assert (HP : P w2).
  { apply (runSchedule_preserves isThingsCreate params_Body principal f P)
      with (sched := sched) (w := started (length (Items params_Body)) w0);
      [| | apply started_inv | | exact Hsched].
    - intros w i req w1 HI HPw Hreq Hfin Htask.
      assert (Hi : i < length (Items params_Body)) by (by eapply lookup_lt_Some).
      destruct (item_task_effects isThingsCreate req i (Async params_Body)
                  principal f w (BatchProps.inv_room _ _ w i HI Hi Hfin))
        as (res & w1' & Htask' & _ & _ & _ & Hfinished & Hcase).
      rewrite Htask in Htask'. injection Htask' as <-.
      intros j. specialize (HPw j). rewrite Hfinished.
      assert (Hmem : (if bool_decide (j ∈ finished w ++ [i]) then 1 else 0)
                     = (if bool_decide (j ∈ finished w) then 1 else 0)
                       + (if (i =? j)%nat then 1 else 0)).
      { destruct (Nat.eqb_spec i j) as [<- | Hne].
        - rewrite (bool_decide_eq_false_2 _ Hfin).
          rewrite bool_decide_eq_true_2; [reflexivity |].
          apply elem_of_app. right. by apply list_elem_of_singleton.
        - destruct (bool_decide (j ∈ finished w)) eqn:Hb.
          + apply bool_decide_eq_true in Hb. rewrite bool_decide_eq_true_2; [reflexivity |].
            apply elem_of_app. by left.
          + apply bool_decide_eq_false in Hb. rewrite bool_decide_eq_false_2; [reflexivity |].
            rewrite elem_of_app, list_elem_of_singleton. intros [? | ?]; congruence. }
      rewrite Hmem.
      destruct (validationOf env isThingsCreate req (connector w) principal).
      + destruct Hcase as (_ & Ht & Hs & _). rewrite Ht, Hs. counts. lia.
      + destruct (Async params_Body).
        * destruct Hcase as (_ & Ht & Hs & _).
          rewrite Ht, Hs, pendingOf_app. counts.
          unfold pendingOf at 2. simpl.
          destruct (i =? j)%nat; simpl; lia.
        * destruct Hcase as (_ & Ht & Hs & _). rewrite Ht, Hs. counts.
          destruct (i =? j)%nat; simpl; lia.
    - intros w i t rest w1 HI HPw Htake Hrun1.
      destruct (async_write_effects isThingsCreate t (set_spawned rest w))
        as (w1' & Hrun1' & _ & Ht & Hs & _ & _ & Hfinished & _).
      rewrite Hrun1 in Hrun1'. injection Hrun1' as <-. simpl in Ht, Hs, Hfinished.
      destruct (takeSpawned_spec i (spawned w) t rest Htake)
        as (Hidx & _ & _ & _ & Hpend).
      intros j. specialize (HPw j). specialize (Hpend j).
      rewrite Ht, Hs, Hfinished. counts.
      rewrite Hidx. destruct (i =? j)%nat; simpl; lia.
    - intros i. unfold started. simpl. rewrite Htrace0, Hspawned0. simpl.
      unfold count, pendingOf. simpl. lia. }
  intros i. specialize (HP i).
  rewrite Htr. counts.
  split.
  - destruct (bool_decide (i ∈ finished w2)); lia.
  - intros Hge. rewrite bool_decide_eq_false_2 in HP; [lia |].
    intros Hin. apply (BatchSpec.inv_bound _ _ _ HI2) in Hin. lia.
Qed.

(** With no write pending at the start, every asynchronous write that is
    still pending when the handler answers holds the pointer that is in
    the response at the index of its own item, and that entry still reads
    PENDING without errors.  When the write runs later and fails, this
    very entry of the response already returned becomes FAILED with the
    connector error; when it succeeds the entry is left as it is. *)
Theorem pending_write_shares_response_entry isThingsCreate principal params_Body
    sched (w0 : World C) payload w' :
  spawned w0 = [] ->
  BatchingCreateHandler env isThingsCreate principal params_Body sched w0
    = Done (OK payload, w') ->
  forall t, t ∈ spawned w' ->
    exists r,
      payload !! aw_requestIndex t = Some (Some (aw_responseObject t))
      /\ heap w' !! aw_responseObject t = Some r
      /\ ObjResult r = {| Status := Some PENDING; Errors := None |}
      /\ forall w3, asyncWrite env isThingsCreate t w' = Done (tt, w3) ->
           heap w3 !! aw_responseObject t
           = Some (match (addOf env isThingsCreate (connector w')
                            (aw_object t) (aw_UUID t)).2 with
                   | Some e => failedWith e r
                   | None => r
                   end).
Proof.
  intros Hspawned0 Hrun.
  destruct (handler_ok_run _ _ _ _ _ _ _ Hrun)
    as (w2 & Hsched & HI2 & _ & Hcollect & Hheap & _ & Hsp & _ & _ & _).
  set (f := determineResponseFields (BodyFields params_Body) isThingsCreate) in *.
  set (P := fun w : World C =>
              NoDup (aw_responseObject <$> spawned w)
              /\ forall t, t ∈ spawned w ->
                   (aw_requestIndex t, aw_responseObject t) ∈ requestResults w
                   /\ exists r, heap w !! aw_responseObject t = Some r
                                /\ ObjResult r
                                   = {| Status := Some PENDING; Errors := None |}).
  assert (HP : P w2).
  { apply (runSchedule_preserves isThingsCreate params_Body principal f P)
      with (sched := sched) (w := started (length (Items params_Body)) w0);
      [| | apply started_inv | | exact Hsched].
    - intros w i req w1 HI [Hnd HPw] Hreq Hfin Htask.
      assert (Hi : i < length (Items params_Body)) by (by eapply lookup_lt_Some).
      destruct (item_task_effects isThingsCreate req i (Async params_Body)
                  principal f w (BatchProps.inv_room _ _ w i HI Hi Hfin))
        as (res & w1' & Htask' & Hh & Hch & _ & _ & Hcase).
      rewrite Htask in Htask'. injection Htask' as <-.
      assert (Hold : forall t, t ∈ spawned w ->
                (aw_requestIndex t, aw_responseObject t) ∈ requestResults w1
                /\ exists r, heap w1 !! aw_responseObject t = Some r
                             /\ ObjResult r
                                = {| Status := Some PENDING; Errors := None |}).
      { intros t Ht. destruct (HPw t Ht) as (Hin & r & Hr & Hres).
        split; [rewrite Hch; apply elem_of_app; by left |].
        exists r. rewrite Hh, lookup_app_l by (by eapply lookup_lt_Some). done. }
      destruct (validationOf env isThingsCreate req (connector w) principal).
      + destruct Hcase as (_ & _ & Hs & _). unfold P. rewrite Hs. done.
      + destruct (Async params_Body).
        * destruct Hcase as (Hres & _ & Hs & _). unfold P. rewrite Hs. split.
          -- rewrite fmap_app. apply NoDup_app. split; [exact Hnd |].
             split; [| apply NoDup_singleton].
             intros loc Hloc Hnew. simpl in Hnew.
             apply list_elem_of_singleton in Hnew. subst loc.
             apply list_elem_of_fmap in Hloc as (t & Heq & Ht).
             destruct (HPw t Ht) as (_ & r & Hr & _).
             apply lookup_lt_Some in Hr. lia.
          -- intros t Ht. apply elem_of_app in Ht as [Ht | Ht]; [by apply Hold |].
             apply list_elem_of_singleton in Ht. subst t. simpl.
             split; [rewrite Hch; apply elem_of_app; right;
                     by apply list_elem_of_singleton |].
             eexists. rewrite Hh, list_lookup_middle by done.
             split; [reflexivity | exact Hres].
        * destruct Hcase as (_ & _ & Hs & _). unfold P. rewrite Hs. done.
    - intros w i t rest w1 HI [Hnd HPw] Htake Hrun1.
      destruct (async_write_effects isThingsCreate t (set_spawned rest w))
        as (w1' & Hrun1' & _ & _ & Hs & Hch & _ & _ & Hh).
      rewrite Hrun1 in Hrun1'. injection Hrun1' as <-. simpl in Hs, Hch, Hh.
      pose proof (takeSpawned_perm i (spawned w) t rest Htake) as Hperm.
      assert (Hnd' : NoDup (aw_responseObject t :: (aw_responseObject <$> rest))).
      { rewrite <- fmap_cons, <- Hperm. exact Hnd. }
      apply NoDup_cons in Hnd' as [Hfresh Hnd'].
      unfold P. rewrite Hs. split; [exact Hnd' |].
      intros t' Ht'.
      assert (Hin : t' ∈ spawned w) by (rewrite Hperm; by apply list_elem_of_further).
      destruct (HPw t' Hin) as (Hmem & r & Hr & Hres).
      split; [by rewrite Hch |].
      exists r. split; [| exact Hres]. rewrite Hh.
      destruct (addOf env isThingsCreate (connector w) (aw_object t) (aw_UUID t)).2
        as [e|]; [| exact Hr].
      rewrite list_lookup_alter_ne; [exact Hr |].
      intros Heq. apply Hfresh. rewrite Heq.
      apply list_elem_of_fmap. by exists t'.
    - unfold P, started. simpl. rewrite Hspawned0. split; [apply NoDup_nil_2 |].
      intros t Ht. inversion Ht. }
  destruct HP as [_ HP]. intros t Ht. rewrite Hsp in Ht.
  destruct (HP t Ht) as (Hmem & r & Hr & Hres).
  exists r. split.
  { by apply (payload_entry_from_channel _ _ _ _ HI2 Hcollect). }
  split; [by rewrite Hheap |]. split; [exact Hres |].
  intros w3 Hlater.
  destruct (async_write_effects isThingsCreate t w')
    as (w3' & Hlater' & _ & _ & _ & _ & _ & _ & Hh).
  rewrite Hlater in Hlater'. injection Hlater' as <-. rewrite Hh.
  destruct (addOf env isThingsCreate (connector w') (aw_object t) (aw_UUID t)).2
    as [e|].
  - rewrite list_lookup_alter_eq, Hheap, Hr. reflexivity.
  - by rewrite Hheap.
Qed.

End Runs.

Example filtered_key_only :
  results (WeaviateBatchingActionsCreateHandler listEnv writer keyOnlyBody
             [RunItem 0] emptyWorld)
  = [Some ("c0", {| Status := None; Errors := None |})]
  /\ (fun r => (AtClass (Obj r), Schema (Obj r), ObjectID r, NrDollarCref <$> Key (Obj r)))
       <$> heap (finalWorld emptyWorld
                   (WeaviateBatchingActionsCreateHandler listEnv writer keyOnlyBody
                      [RunItem 0] emptyWorld))
     = [("", None, "", Some "writer")].
Proof. split; vm_compute; reflexivity. Qed.

Example stored_object_is_filtered :
  (fun e => AtClass e.1)
    <$> connector (finalWorld emptyWorld
                     (WeaviateBatchingActionsCreateHandler listEnv writer keyOnlyBody
                        [RunItem 0] emptyWorld))
  = [""].
Proof. vm_compute. reflexivity. Qed.

Lemma response_entries_filtered_witness :
  exists payload w' r,
    WeaviateBatchingActionsCreateHandler listEnv writer keyOnlyBody [RunItem 0]
      emptyWorld = Done (OK payload, w')
    /\ heap w' !! 0 = Some r
    /\ AtClass (Obj r) = ""
    /\ ObjectID r = "".
Proof.
  destruct (WeaviateBatchingActionsCreateHandler listEnv writer keyOnlyBody
              [RunItem 0] emptyWorld) as [[[| e | payload] w'] | why] eqn:Hrun;
    try (vm_compute in Hrun; discriminate Hrun).
  assert (Hp : payload !! 0 = Some (Some 0)).
  { pose proof Hrun as Hc. vm_compute in Hc. injection Hc as <- _. reflexivity. }
  destruct (response_entries_filtered listEnv false writer keyOnlyBody [RunItem 0]
              emptyWorld payload w' Hrun 0 0 Hp) as (r & Hr & Hf).
  exists payload, w', r. split; [reflexivity |]. split; [exact Hr |].
  destruct Hf as (_ & _ & Hclass & _ & _ & Hid).
  split; [apply Hclass | apply Hid]; vm_compute; reflexivity.
Defined.

Lemma unauthorised_request_untouched_witness :
  exists w',
    WeaviateBatchingThingsCreateHandler listEnv reader (body3 true) schedule201
      emptyWorld = Done (Forbidden, w')
    /\ connector w' = [].
Proof.
  destruct (unauthorised_request_untouched listEnv true reader (body3 true)
              schedule201 emptyWorld) as (w' & Hrun & Hu); [reflexivity |].
  exists w'. split; [exact Hrun | apply Hu].
Defined.

Lemma spawn_accounting_witness :
  exists payload w',
    WeaviateBatchingActionsCreateHandler listEnv writer (body3 true)
      scheduleWithWrite emptyWorld = Done (OK payload, w')
    /\ count isIncSteps (trace w') = count isGo (trace w')
    /\ count isHandlerUnlock (trace w') = 1.
Proof.
  destruct (WeaviateBatchingActionsCreateHandler listEnv writer (body3 true)
              scheduleWithWrite emptyWorld) as [[[| e | payload] w'] | why] eqn:Hrun;
    try (vm_compute in Hrun; discriminate Hrun).
  destruct (spawn_accounting listEnv false writer (body3 true) scheduleWithWrite
              emptyWorld payload w' eq_refl eq_refl Hrun) as (Hinc & _ & Hhu & _).
  exists payload, w'. split; [reflexivity |]. split; [exact Hinc | exact Hhu].
Defined.

Lemma at_most_one_write_per_item_witness :
  exists payload w',
    WeaviateBatchingActionsCreateHandler listEnv writer (body3 true)
      (scheduleWithWrite ++ scheduleWithWrite) emptyWorld = Done (OK payload, w')
    /\ count (isWriteOf 2) (trace w') <= 1.
Proof.
  destruct (WeaviateBatchingActionsCreateHandler listEnv writer (body3 true)
              (scheduleWithWrite ++ scheduleWithWrite) emptyWorld)
    as [[[| e | payload] w'] | why] eqn:Hrun;
    try (vm_compute in Hrun; discriminate Hrun).
  exists payload, w'. split; [reflexivity |].
  apply (at_most_one_write_per_item listEnv false writer (body3 true)
           (scheduleWithWrite ++ scheduleWithWrite) emptyWorld payload w'
           eq_refl eq_refl Hrun 2).
Defined.

Lemma pending_write_shares_response_entry_witness :
  exists payload w' t,
    WeaviateBatchingActionsCreateHandler listEnv writer (body3 true)
      scheduleWithWrite emptyWorld = Done (OK payload, w')
    /\ t ∈ spawned w'
    /\ payload !! aw_requestIndex t = Some (Some (aw_responseObject t)).
Proof.
  destruct (WeaviateBatchingActionsCreateHandler listEnv writer (body3 true)
              scheduleWithWrite emptyWorld) as [[[| e | payload] w'] | why] eqn:Hrun;
    try (vm_compute in Hrun; discriminate Hrun).
  assert (Hsp : exists t, t ∈ spawned w').
  { pose proof Hrun as Hc. vm_compute in Hc. injection Hc as _ <-.
    eexists. simpl. apply list_elem_of_here. }
  destruct Hsp as [t Ht].
  destruct (pending_write_shares_response_entry listEnv false writer (body3 true)
              scheduleWithWrite emptyWorld payload w' eq_refl Hrun t Ht)
    as (r & Hp & _).
  exists payload, w', t. split; [reflexivity |]. split; [exact Ht | exact Hp].
Defined.

Lemma invalid_item_failed_witness :
  exists r w',
    handleBatchedActionsCreateRequest listEnv (item "c1" "Bad") 1 true writer ∅
      roomyWorld = Done (tt, w')
    /\ heap w' = [r]
    /\ ObjResult r = {| Status := Some FAILED; Errors := Some ["class not in schema"] |}
    /\ connector w' = [].
Proof.
  destruct (BatchProps.invalid_item_failed listEnv false (item "c1" "Bad") 1 true
              writer ∅ roomyWorld "class not in schema")
    as (r & w' & Hrun & Hheap & Hres & Hconn & _);
    [reflexivity | apply Nat.lt_0_1 |].
  exists r, w'. split; [exact Hrun |]. split; [exact Hheap |].
  split; [exact Hres | exact Hconn].
Defined.

Lemma written_item_status_unset_witness :
  exists r w',
    handleBatchedActionsCreateRequest listEnv (item "c0" "City") 0 false writer ∅
      roomyWorld = Done (tt, w')
    /\ heap w' = [r]
    /\ ObjResult r = {| Status := None; Errors := None |}.
Proof.
  destruct (BatchProps.written_item_status_unset listEnv false (item "c0" "City") 0
              writer ∅ roomyWorld)
    as (r & w' & Hrun & Hheap & _ & _ & Hres);
    [reflexivity | apply Nat.lt_0_1 |].
  exists r, w'. split; [exact Hrun |]. split; [exact Hheap |].
  pose proof Hrun as Hc. vm_compute in Hc. injection Hc as <-.
  simpl in Hheap. injection Hheap as <-.
  rewrite Hres. vm_compute. reflexivity.
Defined.

End BatchMoreProps.
